(** * watch_n_serve: a shallow embedding of [main.ts]

    The program is a development HTTP server: a [Watcher] debounces raw
    file-system events into "updated" notifications, and a [Server] serves
    files (injecting a reload script into HTML), upgrades a reserved path to
    a WebSocket and broadcasts "updated" to every connected socket.

    Modelling conventions.
    - JavaScript strings are sequences of UTF-16 code units ([JS.jsstring]);
      the string and array built-ins the program calls ([endsWith],
      [lastIndexOf], [substr], [join], [indexOf], [splice]) are written out
      with their ECMAScript behaviour, negative indices included.
    - JavaScript numbers used as counters, indices and millisecond
      timestamps are integers ([Z]); they are exact below 2^53.
    - Closures and runtime resources that the program creates (the
      [outstanding] counter and FsWatcher handle of one [watch()] activation,
      the timers created by [setTimeout], the WebSocket objects) are explicit
      state; the callbacks registered on them are defunctionalised.
    - The cooperative event loop is a sequence of atomic steps, one per
      callback the runtime invokes.
    - The runtime is taken to work: [Deno.watchFs], [Deno.listen] and
      [respondWith] do not throw, and a timer runs at the time it is due.
      [Deno.readFile], [Deno.upgradeWebSocket] and [socket.send] may throw.
    - The lines the watcher prints are kept, since [watch()] prints one even
      when it does nothing else; the lines the server prints are left out. *)

From Stdlib Require Import List ZArith NArith Lia Bool String Ascii.
From Stdlib.Strings Require Import Byte.
From Stdlib Require Import DecimalString.
Import ListNotations.
Local Open Scope Z_scope.

(** ** ECMAScript built-ins used by the program *)

Module JS.

Definition code_unit := N.
Definition jsstring := list code_unit.

(** A source literal, one code unit per (ASCII) character. *)
Definition lit (s : string) : jsstring :=
  map N_of_ascii (list_ascii_of_string s).

(** The double-quote character, U+0022. *)
Definition dquote : jsstring := [34%N].

(** Template-literal conversion of a non-negative integer. *)
Definition number_to_string (n : N) : jsstring :=
  lit (NilZero.string_of_uint (N.to_uint n)).

(** [ToInt32] on an integer: its value modulo 2^32, taken in the range from
    -2^31 to 2^31 - 1. *)
Definition to_int32 (n : Z) : Z :=
  let m := n mod 4294967296 in
  if m <? 2147483648 then m else m - 4294967296.

Fixpoint str_eqb (a b : jsstring) : bool :=
  match a, b with
  | [], [] => true
  | x :: a', y :: b' => N.eqb x y && str_eqb a' b'
  | _, _ => false
  end.

(** [starts_with s p]: the code units of [p] are the first ones of [s]. *)
Fixpoint starts_with (s p : jsstring) {struct p} : bool :=
  match p, s with
  | [], _ => true
  | y :: p', x :: s' => N.eqb x y && starts_with s' p'
  | _ :: _, [] => false
  end.

(** [String.prototype.endsWith(search)], end position omitted. *)
Definition endsWith (s search : jsstring) : bool :=
  let len := List.length s in
  let searchLength := List.length search in
  (searchLength <=? len)%nat && str_eqb (skipn (len - searchLength) s) search.

(** [String.prototype.lastIndexOf(search)], position omitted: the largest
    index at which [search] occurs, or -1.  [k] is the index of the head of
    the part of the string still to be searched. *)
Fixpoint lastIndexOf_at (k : Z) (s search : jsstring) : Z :=
  match s with
  | [] => if starts_with [] search then k else -1
  | _ :: rest =>
      let later := lastIndexOf_at (k + 1) rest search in
      if 0 <=? later then later
      else if starts_with s search then k else -1
  end.

Definition lastIndexOf (s search : jsstring) : Z := lastIndexOf_at 0 s search.

(** [String.prototype.substr(start, length)]; [None] is an omitted length. *)
Definition substr (s : jsstring) (start : Z) (length : option Z) : jsstring :=
  let size := Z.of_nat (List.length s) in
  let from := if start <? 0 then Z.max (size + start) 0 else Z.min start size in
  let n := match length with
           | None => size - from
           | Some l => Z.min (Z.max l 0) (size - from)
           end in
  firstn (Z.to_nat n) (skipn (Z.to_nat from) s).

(** [Array.prototype.join(separator)] on an array of strings. *)
Fixpoint join (sep : jsstring) (l : list jsstring) : jsstring :=
  match l with
  | [] => []
  | [x] => x
  | x :: rest => x ++ sep ++ join sep rest
  end.

Section Arrays.
Context {A : Type} (eqb : A -> A -> bool).

(** [Array.prototype.indexOf(x)]: first index holding [x], or -1. *)
Fixpoint indexOf_at (k : Z) (l : list A) (x : A) : Z :=
  match l with
  | [] => -1
  | y :: rest => if eqb y x then k else indexOf_at (k + 1) rest x
  end.

Definition indexOf (l : list A) (x : A) : Z := indexOf_at 0 l x.

(** [Array.prototype.splice(start, deleteCount)] without inserted items: a
    negative [start] counts from the end, and both arguments are clamped. *)
Definition splice (l : list A) (start deleteCount : Z) : list A :=
  let len := Z.of_nat (List.length l) in
  let from := if start <? 0 then Z.max (len + start) 0 else Z.min start len in
  let count := Z.min (Z.max deleteCount 0) (len - from) in
  firstn (Z.to_nat from) l ++ skipn (Z.to_nat (from + count)) l.

(** [Array.prototype.push(x)]. *)
Definition push (l : list A) (x : A) : list A := l ++ [x].

End Arrays.

End JS.

Import JS.

(** ** The callbacks registered on the watcher

    [OnUpdated] is the arrow function that [Server.serve] passes to
    [watcher.addEventListener("updated", ...)] (main.ts, lines 104-112). *)
Inductive Listener := OnUpdated.

(** ** class Watcher *)

Module Watcher.

(** A raw [Deno.FsEvent]. *)
Record FsEvent := { kind : jsstring; paths : list jsstring }.

(** The [AbortSignal] object handed to the watcher: whether it has fired,
    and the "abort" listeners the watcher added to it.  Each listener is the
    closure of one activation, named by that activation's index. *)
Record AbortSignal := { aborted : bool; abort_listeners : list nat }.

Record WatcherOptions := {
  opt_directories : list jsstring;
  opt_abortSignal : option AbortSignal;
  opt_minimumDelayMS : option Z
}.

(** What one execution of the body of [if (!this.watching)] creates: the
    closure variable [outstanding], the [Deno.watchFs] handle (open until
    [close()]), and the timers set by [setTimeout(update, ...)] that have not
    run yet, each given by the time at which it is due, earliest first. *)
Record Activation := {
  outstanding : Z;
  pending : list Z;
  fs_open : bool
}.

(** The watcher object with everything reachable from it.  [dispatched] is
    the trace of [dispatchEvent] calls (the time of the timer callback that
    made each one) and [console] the lines printed so far. *)
Record t := {
  directories : list jsstring;
  abortSignal : option AbortSignal;
  minimumDelayMS : Z;
  watching : bool;
  listeners : list Listener;
  activations : list Activation;
  dispatched : list Z;
  console : list jsstring
}.

Definition new_ (options : WatcherOptions) : t :=
  {| directories := opt_directories options;
     abortSignal := opt_abortSignal options;
     minimumDelayMS := match opt_minimumDelayMS options with
                       | Some ms => ms
                       | None => 200
                       end;
     watching := false;
     listeners := [];
     activations := [];
     dispatched := [];
     console := [] |}.

(** [console.log(line)]. *)
Definition log (line : jsstring) (w : t) : t :=
  {| directories := directories w; abortSignal := abortSignal w;
     minimumDelayMS := minimumDelayMS w; watching := watching w;
     listeners := listeners w; activations := activations w;
     dispatched := dispatched w; console := console w ++ [line] |}.

Definition set_activations (acts : list Activation) (w : t) : t :=
  {| directories := directories w; abortSignal := abortSignal w;
     minimumDelayMS := minimumDelayMS w; watching := watching w;
     listeners := listeners w; activations := acts;
     dispatched := dispatched w; console := console w |}.

Definition set_watching (b : bool) (w : t) : t :=
  {| directories := directories w; abortSignal := abortSignal w;
     minimumDelayMS := minimumDelayMS w; watching := b;
     listeners := listeners w; activations := activations w;
     dispatched := dispatched w; console := console w |}.

Definition set_abortSignal (s : option AbortSignal) (w : t) : t :=
  {| directories := directories w; abortSignal := s;
     minimumDelayMS := minimumDelayMS w; watching := watching w;
     listeners := listeners w; activations := activations w;
     dispatched := dispatched w; console := console w |}.

(** [this.dispatchEvent(new WatcherUpdatedEvent())] from the timer callback
    running at time [now]. *)
Definition dispatchEvent (now : Z) (w : t) : t :=
  {| directories := directories w; abortSignal := abortSignal w;
     minimumDelayMS := minimumDelayMS w; watching := watching w;
     listeners := listeners w; activations := activations w;
     dispatched := dispatched w ++ [now]; console := console w |}.

(** [addEventListener("updated", listener)]. *)
Definition addEventListener (l : Listener) (w : t) : t :=
  {| directories := directories w; abortSignal := abortSignal w;
     minimumDelayMS := minimumDelayMS w; watching := watching w;
     listeners := listeners w ++ [l]; activations := activations w;
     dispatched := dispatched w; console := console w |}.

(** In-place update of the [i]-th element; out of range nothing changes. *)
Fixpoint replace_nth {A : Type} (i : nat) (x : A) (l : list A) : list A :=
  match l, i with
  | [], _ => []
  | _ :: rest, O => x :: rest
  | y :: rest, S i' => y :: replace_nth i' x rest
  end.

(** [setTimeout] converts its delay to a 32-bit signed integer and then
    takes a negative delay as 0: a delay of 2^31 runs at once, and a delay
    of 2^32 + 100 is a delay of 100. *)
Definition timer_delay (ms : Z) : Z := Z.max 0 (to_int32 ms).

(** The runtime's timer queue runs timers by due time, and timers due at the
    same time in the order they were set. *)
Fixpoint schedule (due : Z) (queue : list Z) : list Z :=
  match queue with
  | [] => [due]
  | d :: rest => if d <=? due then d :: schedule due rest else due :: queue
  end.

Definition fresh_activation : Activation :=
  {| outstanding := 0; pending := []; fs_open := true |}.

Definition monitoring_line (w : t) : jsstring :=
  lit "Watch: monitoring " ++ join (lit ";") (directories w).

(** [watch()], lines 25-61.  When the watcher is not yet watching, a new
    activation is created and, if an abort signal was supplied, its "abort"
    listener is added to the signal.  The status line is printed in both
    cases. *)
Definition watch (w : t) : t :=
  let w' :=
    if negb (watching w) then
      let i := List.length (activations w) in
      let w1 := set_watching true w in
      let w2 := set_activations (activations w1 ++ [fresh_activation]) w1 in
      match abortSignal w2 with
      | Some s =>
          set_abortSignal
            (Some {| aborted := aborted s;
                     abort_listeners := abort_listeners s ++ [i] |}) w2
      | None => w2
      end
    else w in
  log (monitoring_line w') w'.

(** One iteration of [for await (const event of watcher)] in activation [i],
    at time [now] (lines 41-45).  A closed handle yields no more events. *)
Definition raw (i : nat) (event : FsEvent) (now : Z) (w : t) : t :=
  match nth_error (activations w) i with
  | Some a =>
      if fs_open a then
        let w1 := log (lit "Watch: " ++ kind event ++ lit " for "
                         ++ join (lit ";") (paths event)) w in
        set_activations
          (replace_nth i
             {| outstanding := outstanding a + 1;
                pending := schedule (now + timer_delay (minimumDelayMS w))
                                    (pending a);
                fs_open := fs_open a |}
             (activations w1)) w1
      else w
  | None => w
  end.

(** The earliest timer of activation [i] runs [update] (lines 31-36).  The
    result also lists the listeners that [dispatchEvent] invoked. *)
Definition timeout (i : nat) (w : t) : t * list Listener :=
  match nth_error (activations w) i with
  | Some a =>
      match pending a with
      | now :: rest =>
          let n := outstanding a - 1 in
          let w1 := set_activations
                      (replace_nth i
                         {| outstanding := n; pending := rest;
                            fs_open := fs_open a |}
                         (activations w)) w in
          if n =? 0 then
            (dispatchEvent now (log (lit "Watch: notifying...") w1),
             listeners w1)
          else (w1, [])
      | [] => (w, [])
      end
  | None => (w, [])
  end.

(** [watcher.close()] on the handle of an activation. *)
Definition close_handle (a : Activation) : Activation :=
  {| outstanding := outstanding a; pending := pending a; fs_open := false |}.

(** The "abort" listener of activation [i] (lines 50-54). *)
Definition on_abort (w : t) (i : nat) : t :=
  let w1 := log (lit "Watch: aborting...") w in
  let w2 :=
    match nth_error (activations w1) i with
    | Some a =>
        set_activations (replace_nth i (close_handle a) (activations w1)) w1
    | None => w1
    end in
  set_watching false w2.

(** The abort signal fires: it does so at most once, and then runs the
    listeners added to it, in order. *)
Definition abort (w : t) : t :=
  match abortSignal w with
  | Some s =>
      if aborted s then w
      else
        fold_left on_abort (abort_listeners s)
          (set_abortSignal
             (Some {| aborted := true;
                      abort_listeners := abort_listeners s |}) w)
  | None => w
  end.

(** *** Executions *)

(** The callbacks the runtime may invoke on a watcher, and calls of its
    public methods. *)
Inductive Action :=
| CallWatch
| CallAddEventListener (l : Listener)
| Raw (i : nat) (event : FsEvent) (now : Z)
| Timeout (i : nat)
| Abort.

Definition step (w : t) (a : Action) : t :=
  match a with
  | CallWatch => watch w
  | CallAddEventListener l => addEventListener l w
  | Raw i event now => raw i event now w
  | Timeout i => fst (timeout i w)
  | Abort => abort w
  end.

Definition exec (w : t) (acts : list Action) : t := fold_left step acts w.

(** *** Timed executions of one activation

    Raw events arrive at given times, in order, and each timer runs at the
    time it is due.  So before an event arriving at time [t] is handled,
    every timer due before [t] has run; when a timer is due exactly at [t]
    the runtime may run either first, which the scheduler [sched] decides
    from the current state ([true]: the timer).  After the last event the
    remaining timers run.  The number of timers in the queue bounds the
    number that can run, and is used as the fuel of [fire_due] and
    [flush_n]. *)

Definition next_due (i : nat) (w : t) : option Z :=
  match nth_error (activations w) i with
  | Some a => hd_error (pending a)
  | None => None
  end.

Definition pending_count (i : nat) (w : t) : nat :=
  match nth_error (activations w) i with
  | Some a => List.length (pending a)
  | None => O
  end.

Fixpoint fire_due (sched : t -> bool) (i : nat) (t0 : Z) (n : nat) (w : t) : t :=
  match n with
  | O => w
  | S n' =>
      match next_due i w with
      | Some due =>
          if (due <? t0) || ((due =? t0) && sched w)
          then fire_due sched i t0 n' (fst (timeout i w))
          else w
      | None => w
      end
  end.

Definition advance (sched : t -> bool) (i : nat) (t0 : Z) (w : t) : t :=
  fire_due sched i t0 (pending_count i w) w.

Fixpoint flush_n (i : nat) (n : nat) (w : t) : t :=
  match n with
  | O => w
  | S n' => flush_n i n' (fst (timeout i w))
  end.

Definition flush (i : nat) (w : t) : t := flush_n i (pending_count i w) w.

Fixpoint deliver (sched : t -> bool) (i : nat)
  (events : list (Z * FsEvent)) (w : t) : t :=
  match events with
  | [] => w
  | (t0, e) :: rest => deliver sched i rest (raw i e t0 (advance sched i t0 w))
  end.

Definition run (sched : t -> bool) (i : nat)
  (events : list (Z * FsEvent)) (w : t) : t :=
  flush i (deliver sched i events w).

(** Arrival times in order, each gap bounded as [gap_ok] requires. *)
Fixpoint spaced (gap_ok : Z -> bool) (times : list Z) : bool :=
  match times with
  | t1 :: ((t2 :: _) as rest) =>
      (t1 <=? t2) && gap_ok (t2 - t1) && spaced gap_ok rest
  | _ => true
  end.

(** *** Predicates used in the statements below *)

(** Activation [i] of [w] has counter [out], timer queue [queue] and handle
    state [open_]; the dispatch trace is [trace] and the delay is [d]. *)
Definition at_ (i : nat) (w : t) (out : Z) (queue : list Z) (open_ : bool)
  (trace : list Z) (d : Z) : Prop :=
  nth_error (activations w) i
    = Some {| outstanding := out; pending := queue; fs_open := open_ |}
  /\ dispatched w = trace
  /\ minimumDelayMS w = d.

(** The counter of an activation equals the number of its timers that have
    been set and have not run. *)
Definition counted (a : Activation) : Prop :=
  outstanding a = Z.of_nat (List.length (pending a)).

Definition is_timeout (a : Action) : bool :=
  match a with
  | Timeout _ => true
  | _ => false
  end.

(** The watcher without what it has printed. *)
Definition quiet (w : t) : t :=
  {| directories := directories w; abortSignal := abortSignal w;
     minimumDelayMS := minimumDelayMS w; watching := watching w;
     listeners := listeners w; activations := activations w;
     dispatched := dispatched w; console := [] |}.

(** *** Scenarios *)

Definition modify_event : FsEvent :=
  {| kind := lit "modify"; paths := [lit "www/index.html"] |}.

(** The options with which the server creates its watcher: the delay is
    left at its default. *)
Definition server_watcher_options : WatcherOptions :=
  {| opt_directories := [lit "www"];
     opt_abortSignal := None;
     opt_minimumDelayMS := None |}.

Definition started_watcher : t := watch (new_ server_watcher_options).

(** A started watcher that was given an abort signal, after one raw event at
    time 0. *)
Definition abortable_watcher : t :=
  raw 0 modify_event 0
    (watch (new_ {| opt_directories := [lit "www"];
                    opt_abortSignal :=
                      Some {| aborted := false; abort_listeners := [] |};
                    opt_minimumDelayMS := Some 200 |})).

(** A scheduler that lets a timer run before an event arriving at the very
    time the timer is due, and one that lets the event go first. *)
Definition timers_first : t -> bool := fun _ => true.
Definition events_first : t -> bool := fun _ => false.

(** *** Further notions used in the statements below *)

(** The arrival times after which nothing arrives for more than [d]: the
    last event of each burst. *)
Fixpoint burst_ends (d : Z) (times : list Z) : list Z :=
  match times with
  | [] => []
  | t1 :: rest =>
      match rest with
      | [] => [t1]
      | t2 :: _ =>
          if d <? t2 - t1 then t1 :: burst_ends d rest else burst_ends d rest
      end
  end.

(** The time of the one notification still to come from a timer queue that
    receives no further timers, if the queue is not empty. *)
Definition late (queue : list Z) : list Z :=
  match queue with
  | [] => []
  | _ :: _ => [last queue 0]
  end.

(** The arrival times of the raw events in a sequence of actions. *)
Definition raw_times (acts : list Action) : list Z :=
  flat_map (fun a => match a with
                     | Raw _ _ now => [now]
                     | _ => []
                     end) acts.

(** The number of timers set and not yet run, over all activations. *)
Definition total_pending (w : t) : nat :=
  list_sum (map (fun a => List.length (pending a)) (activations w)).

(** Activation [i] is the only one that can still do anything: every other
    activation has its handle closed and no timer pending.  Then [run], which
    delivers the events to activation [i] and runs its timers, is all that
    happens in the watcher. *)
Definition alone (i : nat) (w : t) : Prop :=
  forall j a,
    j <> i -> nth_error (activations w) j = Some a ->
    fs_open a = false /\ pending a = [].

(** A started watcher with a given [minimumDelayMS]. *)
Definition watcher_with_delay (ms : Z) : t :=
  watch (new_ {| opt_directories := [lit "www"];
                 opt_abortSignal := None;
                 opt_minimumDelayMS := Some ms |}).

(** Two bursts and a single event, far apart. *)
Definition three_bursts : list (Z * FsEvent) :=
  [(0, modify_event); (50, modify_event); (120, modify_event);
   (400, modify_event); (450, modify_event); (1000, modify_event)].

(** The options of a watcher that is given an abort signal. *)
Definition abortable_options : WatcherOptions :=
  {| opt_directories := [lit "www"];
     opt_abortSignal := Some {| aborted := false; abort_listeners := [] |};
     opt_minimumDelayMS := Some 200 |}.

End Watcher.

(** ** class Server *)

Module Server.

(** A [WebSocket] object, identified by the order of its creation. *)
Definition Socket := nat.

(** How a call ends: normally, or by throwing. *)
Inductive Completion := Normal | Throw.

Record ServerOptions := {
  opt_root : jsstring;
  opt_port : option N;
  opt_hostName : option jsstring;
  opt_watch : option bool
}.

(** The server object with everything reachable from it.  [created] counts
    the sockets made by [Deno.upgradeWebSocket], [closed] lists those whose
    "close" event has been delivered, and [sent] is the trace of
    [socket.send] calls with the way each one ended. *)
Record t := {
  root : jsstring;
  port : N;
  hostName : jsstring;
  watcher : option Watcher.t;
  reloadEventPath : jsstring;
  reloadScript : jsstring;
  reloadClients : list Socket;
  created : nat;
  closed : list Socket;
  sent : list (Socket * jsstring * Completion)
}.

Definition new_ (options : ServerOptions) : t :=
  let root_ := opt_root options in
  let port_ := match opt_port options with Some p => p | None => 8888%N end in
  let hostName_ := match opt_hostName options with
                   | Some h => h
                   | None => lit "localhost"
                   end in
  let reloadEventPath_ := lit "/.watch_n_serve/events" in
  {| root := root_;
     port := port_;
     hostName := hostName_;
     watcher := match opt_watch options with
                | Some true =>
                    Some (Watcher.new_
                            {| Watcher.opt_directories := [root_];
                               Watcher.opt_abortSignal := None;
                               Watcher.opt_minimumDelayMS := None |})
                | _ => None
                end;
     reloadEventPath := reloadEventPath_;
     reloadScript :=
       lit "<script>(new WebSocket(" ++ dquote ++ lit "ws://" ++ hostName_
         ++ lit ":" ++ number_to_string port_ ++ reloadEventPath_ ++ dquote
         ++ lit ")).addEventListener(" ++ dquote ++ lit "message" ++ dquote
         ++ lit ", function (event) { window.location.reload(); });</script>";
     reloadClients := [];
     created := O;
     closed := [];
     sent := [] |}.

Definition set_watcher (w : option Watcher.t) (st : t) : t :=
  {| root := root st; port := port st; hostName := hostName st;
     watcher := w; reloadEventPath := reloadEventPath st;
     reloadScript := reloadScript st; reloadClients := reloadClients st;
     created := created st; closed := closed st; sent := sent st |}.

Definition set_reloadClients (l : list Socket) (st : t) : t :=
  {| root := root st; port := port st; hostName := hostName st;
     watcher := watcher st; reloadEventPath := reloadEventPath st;
     reloadScript := reloadScript st; reloadClients := l;
     created := created st; closed := closed st; sent := sent st |}.

(** *** Broadcast (lines 104-112) *)

(** [socket.send(data)]: the runtime decides through [ok] whether the call
    returns or throws; the call is recorded either way. *)
Definition send (ok : Socket -> bool) (socket : Socket) (data : jsstring)
  (st : t) : t * Completion :=
  let c := if ok socket then Normal else Throw in
  ({| root := root st; port := port st; hostName := hostName st;
      watcher := watcher st; reloadEventPath := reloadEventPath st;
      reloadScript := reloadScript st; reloadClients := reloadClients st;
      created := created st; closed := closed st;
      sent := sent st ++ [(socket, data, c)] |}, c).

(** The body of the [for] loop: [try { socket.send("updated"); } catch {}]. *)
Definition try_send (ok : Socket -> bool) (st : t) (socket : Socket) : t :=
  match send ok socket (lit "updated") st with
  | (st', Normal) => st'
  | (st', Throw) => st'
  end.

(** The "updated" listener: [for (const socket of this.reloadClients)]. *)
Definition on_updated (ok : Socket -> bool) (st : t) : t :=
  fold_left (try_send ok) (reloadClients st) st.

Definition run_listener (ok : Socket -> bool) (st : t) (l : Listener) : t :=
  match l with
  | OnUpdated => on_updated ok st
  end.

(** *** Requests (lines 127-162) *)

(** A request: the path of its URL, its method (only ever printed), and
    whether [Deno.upgradeWebSocket] accepts it rather than throws. *)
Record Request := {
  pathname : jsstring;
  method : jsstring;
  websocket_upgrade : bool
}.

Inductive Response :=
| Response_ (body : list byte) (status : Z)
| Upgrade (socket : Socket).

(** [Deno.readFile]: the bytes of the file, or [None] when the call throws. *)
Definition FileSystem := jsstring -> option (list byte).

(** Line 138. *)
Definition resolve (root_ pathname_ : jsstring) : jsstring :=
  root_ ++ (if endsWith pathname_ (lit "/")
            then pathname_ ++ lit "index.html"
            else pathname_).

(** Lines 145-150. *)
Definition insert_script (script text : jsstring) : jsstring :=
  let index := lastIndexOf text (lit "</body>") in
  if index >=? 0
  then substr text 0 (Some index) ++ script ++ substr text index None
  else text ++ script.

Section Handle.

(** [TextDecoder.decode] and [TextEncoder.encode] (UTF-8, never throwing). *)
Variable decode : list byte -> jsstring.
Variable encode : jsstring -> list byte.

Definition is_some {A : Type} (o : option A) : bool :=
  match o with Some _ => true | None => false end.

(** The socket's "close" listener (line 134). *)
Definition on_close (socket : Socket) (st : t) : t :=
  set_reloadClients
    (splice (reloadClients st) (indexOf Nat.eqb (reloadClients st) socket) 1)
    st.

(** One request; [fs] is the file system at that moment.  [respondWith] is
    taken to deliver the response it is given. *)
Definition handle (fs : FileSystem) (rq : Request) (st : t) : t * Response :=
  if is_some (watcher st) && str_eqb (pathname rq) (reloadEventPath st) then
    if websocket_upgrade rq then
      let socket := created st in
      ({| root := root st; port := port st; hostName := hostName st;
          watcher := watcher st; reloadEventPath := reloadEventPath st;
          reloadScript := reloadScript st;
          reloadClients := push (reloadClients st) socket;
          created := S (created st); closed := closed st; sent := sent st |},
       Upgrade socket)
    else (st, Response_ [] 404)
  else
    let path := resolve (root st) (pathname rq) in
    match fs path with
    | Some content =>
        let content' :=
          if is_some (watcher st) && endsWith path (lit ".html")
          then encode (insert_script (reloadScript st) (decode content))
          else content in
        (st, Response_ content' 200)
    | None => (st, Response_ [] 404)
    end.

(** [serve()]: the listener is registered, the accept loop starts, and the
    watcher is started. *)
Definition serve (st : t) : t :=
  let st1 := match watcher st with
             | Some w =>
                 set_watcher (Some (Watcher.addEventListener OnUpdated w)) st
             | None => st
             end in
  match watcher st1 with
  | Some w => set_watcher (Some (Watcher.watch w)) st1
  | None => st1
  end.

(** A timer of the watcher runs; the listeners it invokes run at once. *)
Definition watcher_timeout (i : nat) (ok : Socket -> bool) (st : t) : t :=
  match watcher st with
  | Some w =>
      let (w', calls) := Watcher.timeout i w in
      fold_left (run_listener ok) calls (set_watcher (Some w') st)
  | None => st
  end.

Definition watcher_raw (i : nat) (e : Watcher.FsEvent) (now : Z) (st : t) : t :=
  match watcher st with
  | Some w => set_watcher (Some (Watcher.raw i e now w)) st
  | None => st
  end.

(** *** Executions *)

(** What the runtime may deliver to a serving server.  A "close" event is
    delivered at most once per socket, and only for a socket that exists. *)
Inductive Action :=
| Incoming (fs : FileSystem) (rq : Request)
| Close (socket : Socket)
| WatcherRaw (i : nat) (e : Watcher.FsEvent) (now : Z)
| WatcherTimeout (i : nat) (ok : Socket -> bool).

Definition mark_closed (socket : Socket) (st : t) : t :=
  {| root := root st; port := port st; hostName := hostName st;
     watcher := watcher st; reloadEventPath := reloadEventPath st;
     reloadScript := reloadScript st; reloadClients := reloadClients st;
     created := created st; closed := socket :: closed st; sent := sent st |}.

Definition step (st : t) (a : Action) : option t :=
  match a with
  | Incoming fs rq => Some (fst (handle fs rq st))
  | Close socket =>
      if (socket <? created st)%nat
         && negb (existsb (Nat.eqb socket) (closed st))
      then Some (on_close socket (mark_closed socket st))
      else None
  | WatcherRaw i e now => Some (watcher_raw i e now st)
  | WatcherTimeout i ok => Some (watcher_timeout i ok st)
  end.

Fixpoint exec (st : t) (acts : list Action) : option t :=
  match acts with
  | [] => Some st
  | a :: rest =>
      match step st a with
      | Some st' => exec st' rest
      | None => None
      end
  end.

End Handle.

(** *** Predicates used in the statements below *)

(** The sockets to which a broadcast made in state [st] sends, in order. *)
Definition broadcast_targets (ok : Socket -> bool) (st : t) : list Socket :=
  map (fun call => fst (fst call))
      (skipn (List.length (sent st)) (sent (on_updated ok st))).

Definition add_sent (calls : list (Socket * jsstring * Completion)) (st : t)
  : t :=
  {| root := root st; port := port st; hostName := hostName st;
     watcher := watcher st; reloadEventPath := reloadEventPath st;
     reloadScript := reloadScript st; reloadClients := reloadClients st;
     created := created st; closed := closed st;
     sent := sent st ++ calls |}.

(** A socket that exists and whose "close" event is still to come. *)
Definition open_socket (st : t) (s : Socket) : Prop :=
  (s < created st)%nat /\ ~ In s (closed st).

(** What holds of the broadcast set in every state of a serving server. *)
Definition clients_ok (st : t) : Prop :=
  NoDup (reloadClients st)
  /\ (forall s, In s (reloadClients st) <-> open_socket st s)
  /\ (forall s, In s (closed st) -> (s < created st)%nat).

(** The only listener of the watcher is the one [serve()] registered. *)
Definition listening (st : t) : Prop :=
  forall w, watcher st = Some w -> Watcher.listeners w = [OnUpdated].

(** The request is served from a file, not upgraded (line 130). *)
Definition file_request (st : t) (rq : Request) : bool :=
  negb (is_some (watcher st) && str_eqb (pathname rq) (reloadEventPath st)).

(** *** Scenarios *)

(** A codec for files of 8-bit characters, one code unit per byte. *)
Definition latin1_decode (content : list byte) : jsstring :=
  map (fun b => N_of_ascii (ascii_of_byte b)) content.

Definition latin1_encode (text : jsstring) : list byte :=
  map (fun u => byte_of_ascii (ascii_of_N u)) text.

(** The server that the program starts (lines 178-189), for root [www]. *)
Definition main_options : ServerOptions :=
  {| opt_root := lit "www";
     opt_port := Some 8888%N;
     opt_hostName := Some (lit "localhost");
     opt_watch := Some true |}.

Definition main_server : t := serve (new_ main_options).

Definition index_html : list byte :=
  latin1_encode (lit "<html><body>hi</body></html>").

Definition style_css : list byte := latin1_encode (lit "body { margin: 0 }").

(** A root directory holding [index.html] and [style.css]. *)
Definition www : FileSystem :=
  fun path =>
    if str_eqb path (lit "www/index.html") then Some index_html
    else if str_eqb path (lit "www/style.css") then Some style_css
    else None.

Definition get (path : string) : Request :=
  {| pathname := lit path; method := lit "GET"; websocket_upgrade := false |}.

Definition get_events : Request :=
  {| pathname := lit "/.watch_n_serve/events"; method := lit "GET";
     websocket_upgrade := true |}.

(** A channel on which sending to socket 1 throws. *)
Definition socket_1_gone : Socket -> bool := fun s => negb (Nat.eqb s 1).

Definition upgrade_once (st : t) : t :=
  fst (handle latin1_decode latin1_encode www get_events st).

Definition three_upgrades : list Action :=
  [Incoming www get_events; Incoming www get_events; Incoming www get_events].

(** The server after three clients have opened the events channel. *)
Definition three_clients : t :=
  upgrade_once (upgrade_once (upgrade_once main_server)).

(** *** Further notions used in the statements below *)

(** The sockets created so far whose "close" event has not been delivered,
    in the order of their creation. *)
Definition open_sockets (st : t) : list Socket :=
  filter (fun s => negb (existsb (Nat.eqb s) (closed st)))
         (seq 0 (created st)).

(** What one broadcast over the sockets [l] adds to the trace of calls. *)
Definition updated_calls (ok : Socket -> bool) (l : list Socket)
  : list (Socket * jsstring * Completion) :=
  map (fun c => (c, lit "updated", if ok c then Normal else Throw)) l.

(** A server started without watching. *)
Definition plain_options : ServerOptions :=
  {| opt_root := lit "www";
     opt_port := None;
     opt_hostName := None;
     opt_watch := None |}.

(** Three clients connect, the second one leaves, a fourth one connects. *)
Definition reconnecting : list Action :=
  three_upgrades ++ [Close 1%nat; Incoming www get_events].

Definition reconnected : t :=
  upgrade_once (on_close 1%nat (mark_closed 1%nat three_clients)).

(** Three clients connect; a change is broadcast while sending to the second
    one throws; the second one leaves; another change is broadcast. *)
Definition notified_twice : list Action :=
  three_upgrades
    ++ [WatcherRaw 0 Watcher.modify_event 0; WatcherTimeout 0 socket_1_gone;
        Close 1%nat;
        WatcherRaw 0 Watcher.modify_event 1000;
        WatcherTimeout 0 (fun _ => true)].

Definition after_two_notifications : t :=
  watcher_timeout 0 (fun _ => true)
    (watcher_raw 0 Watcher.modify_event 1000
       (on_close 1%nat
          (mark_closed 1%nat
             (watcher_timeout 0 socket_1_gone
                (watcher_raw 0 Watcher.modify_event 0 three_clients))))).

(** The watcher of a serving server: it has the server's listener and the
    default delay, it is watching the root and has no abort signal, and it
    has one activation, whose handle is open. *)
Definition watcher_running (root_ : jsstring) (w : Watcher.t) : Prop :=
  Watcher.listeners w = [OnUpdated]
  /\ Watcher.minimumDelayMS w = 200
  /\ Watcher.watching w = true
  /\ Watcher.abortSignal w = None
  /\ Watcher.directories w = [root_]
  /\ exists a, Watcher.activations w = [a] /\ Watcher.fs_open a = true.

(** The watcher of [three_clients]: the one [serve()] started. *)
Definition three_clients_watcher : Watcher.t :=
  Watcher.watch
    (Watcher.addEventListener OnUpdated
       (Watcher.new_
          {| Watcher.opt_directories := [lit "www"];
             Watcher.opt_abortSignal := None;
             Watcher.opt_minimumDelayMS := None |})).

End Server.

(** * Properties of the watcher *)

Module WatcherProofs.

Import Watcher.

(** ** Bookkeeping lemmas *)

Lemma nth_error_replace_nth_same :
  forall (A : Type) (l : list A) (i : nat) (x y : A),
    nth_error l i = Some y -> nth_error (replace_nth i x l) i = Some x.
Proof.
  induction l as [|z l IH]; intros [|i] x y H; simpl in *; try discriminate.
  - reflexivity.
  - eapply IH; eassumption.
Qed.

Lemma nth_error_replace_nth_other :
  forall (A : Type) (l : list A) (i j : nat) (x : A),
    i <> j -> nth_error (replace_nth i x l) j = nth_error l j.
Proof.
  induction l as [|z l IH]; intros [|i] [|j] x H; simpl; try reflexivity.
  - congruence.
  - apply IH. congruence.
Qed.

Lemma length_replace_nth :
  forall (A : Type) (l : list A) (i : nat) (x : A),
    List.length (replace_nth i x l) = List.length l.
Proof.
  induction l as [|z l IH]; intros [|i] x; simpl; try reflexivity.
  now rewrite IH.
Qed.

Lemma Forall_replace_nth :
  forall (A : Type) (P : A -> Prop) (l : list A) (i : nat) (x : A),
    Forall P l -> P x -> Forall P (replace_nth i x l).
Proof.
  induction l as [|z l IH]; intros [|i] x Hl Hx; simpl; try assumption;
    inversion Hl; subst; constructor; auto.
Qed.

Lemma length_schedule :
  forall (due : Z) (queue : list Z),
    List.length (schedule due queue) = S (List.length queue).
Proof.
  induction queue as [|d q IH]; simpl; [reflexivity|].
  destruct (d <=? due); simpl; [now rewrite IH | reflexivity].
Qed.

Lemma schedule_latest :
  forall (due : Z) (queue : list Z),
    Forall (fun d => d <= due) queue -> schedule due queue = queue ++ [due].
Proof.
  induction queue as [|d q IH]; intros H; simpl; [reflexivity|].
  inversion H; subst.
  destruct (Z.leb_spec d due); [|lia].
  now rewrite IH.
Qed.

(** ** The effect of one callback on one activation *)

Lemma at_raw :
  forall i w out queue trace d e now,
    at_ i w out queue true trace d ->
    at_ i (raw i e now w) (out + 1)
        (schedule (now + timer_delay d) queue) true trace d.
Proof.
  intros i w out queue trace d e now (Hn & Ht & Hd).
  unfold raw. rewrite Hn. simpl.
  repeat split; simpl; try assumption.
  rewrite Hd. eapply nth_error_replace_nth_same. eassumption.
Qed.

Lemma at_timeout :
  forall i w out now rest open_ trace d,
    at_ i w out (now :: rest) open_ trace d ->
    at_ i (fst (timeout i w)) (out - 1) rest open_
        (if out - 1 =? 0 then trace ++ [now] else trace) d.
Proof.
  intros i w out now rest open_ trace d (Hn & Ht & Hd).
  unfold timeout. rewrite Hn. simpl.
  destruct (out - 1 =? 0); simpl; repeat split; simpl;
    try assumption; try congruence;
    eapply nth_error_replace_nth_same; eassumption.
Qed.

Lemma at_next_due :
  forall i w out queue open_ trace d,
    at_ i w out queue open_ trace d -> next_due i w = hd_error queue.
Proof. intros i w out queue open_ trace d (Hn & _). unfold next_due. now rewrite Hn. Qed.

Lemma at_pending_count :
  forall i w out queue open_ trace d,
    at_ i w out queue open_ trace d -> pending_count i w = List.length queue.
Proof. intros i w out queue open_ trace d (Hn & _). unfold pending_count. now rewrite Hn. Qed.

(** ** Timed executions: what the timers do between and after events *)

Lemma last_cons_default :
  forall (A : Type) (l : list A) (a d : A), last (a :: l) d = last l a.
Proof.
  induction l as [|b l IH]; intros a d; [reflexivity|].
  change (last (a :: b :: l) d) with (last (b :: l) d).
  rewrite !IH. reflexivity.
Qed.

(** While the most recent timer [L] is not yet allowed to run at time [t0],
    the timers that do run before [t0] leave the counter positive, so none
    of them dispatches. *)
Lemma fire_due_keeps_last :
  forall sched i t0 L n w ps trace d,
    (forall w', (L <? t0) || ((L =? t0) && sched w') = false) ->
    at_ i w (Z.of_nat (List.length (ps ++ [L]))) (ps ++ [L]) true trace d ->
    exists ps',
      incl ps' ps /\
      at_ i (fire_due sched i t0 n w)
          (Z.of_nat (List.length (ps' ++ [L]))) (ps' ++ [L]) true trace d.
Proof.
  intros sched i t0 L n. induction n as [|n IH]; intros w ps trace d HL Hat.
  - exists ps. split; [apply incl_refl | exact Hat].
  - simpl. rewrite (at_next_due _ _ _ _ _ _ _ Hat).
    destruct ps as [|p ps]; simpl.
    + rewrite HL. exists []. split; [apply incl_refl | exact Hat].
    + destruct ((p <? t0) || ((p =? t0) && sched w)).
      * apply at_timeout in Hat.
        replace (Z.of_nat (List.length ((p :: ps) ++ [L])) - 1)
          with (Z.of_nat (List.length (ps ++ [L]))) in Hat
          by (simpl List.length; lia).
        destruct (Z.eqb_spec (Z.of_nat (List.length (ps ++ [L]))) 0) as [E|_].
        { rewrite length_app in E. simpl in E. lia. }
        destruct (IH _ _ _ _ HL Hat) as (ps' & Hincl & Hat').
        exists ps'. split; [|exact Hat'].
        intros x Hx. right. apply Hincl, Hx.
      * exists (p :: ps). split; [apply incl_refl | exact Hat].
Qed.

(** Once no more events arrive, the timers run in order and only the last
    one brings the counter to 0. *)
Lemma flush_n_all :
  forall i L ps w open_ trace d,
    at_ i w (Z.of_nat (List.length (ps ++ [L]))) (ps ++ [L]) open_ trace d ->
    at_ i (flush_n i (List.length (ps ++ [L])) w) 0 [] open_ (trace ++ [L]) d.
Proof.
  intros i L. induction ps as [|p ps IH]; intros w open_ trace d Hat.
  - simpl in *. apply at_timeout in Hat. exact Hat.
  - simpl flush_n. apply at_timeout in Hat.
    replace (Z.of_nat (List.length ((p :: ps) ++ [L])) - 1)
      with (Z.of_nat (List.length (ps ++ [L]))) in Hat
      by (simpl List.length; lia).
    destruct (Z.eqb_spec (Z.of_nat (List.length (ps ++ [L]))) 0) as [E|_].
    { rewrite length_app in E. simpl in E. lia. }
    simpl List.length. apply IH. exact Hat.
Qed.

(** The events of a burst after its first one: the timer set by the latest
    event is always still pending when the next event arrives. *)
Lemma deliver_burst :
  forall sched gap_ok i d E events w ps t_prev trace,
    timer_delay d = E ->
    (forall g w', gap_ok g = true -> g < E \/ (g = E /\ sched w' = false)) ->
    spaced gap_ok (t_prev :: map fst events) = true ->
    Forall (fun p => p <= t_prev + E) ps ->
    at_ i w (Z.of_nat (List.length (ps ++ [t_prev + E])))
        (ps ++ [t_prev + E]) true trace d ->
    exists ps',
      at_ i (deliver sched i events w)
          (Z.of_nat (List.length (ps' ++ [last (map fst events) t_prev + E])))
          (ps' ++ [last (map fst events) t_prev + E]) true trace d.
Proof.
  intros sched gap_ok i d E events.
  induction events as [|[t0 e] rest IH];
    intros w ps t_prev trace Hd Hgap Hsp Hps Hat.
  - exists ps. exact Hat.
  - cbn [map fst] in *. rewrite last_cons_default.
    cbn [spaced] in Hsp.
    apply andb_prop in Hsp. destruct Hsp as [Hsp Hrest].
    apply andb_prop in Hsp. destruct Hsp as [Hle Hg].
    apply Z.leb_le in Hle.
    cbn [deliver]. unfold advance.
    assert (HL : forall w', (t_prev + E <? t0)
                            || ((t_prev + E =? t0) && sched w') = false).
    { intros w'. destruct (Hgap _ w' Hg) as [Hlt | [Heq Hs]].
      - destruct (Z.ltb_spec (t_prev + E) t0); [lia|].
        destruct (Z.eqb_spec (t_prev + E) t0); [lia|]. reflexivity.
      - rewrite Hs, andb_false_r.
        destruct (Z.ltb_spec (t_prev + E) t0); [lia|]. reflexivity. }
    destruct (fire_due_keeps_last sched i t0 (t_prev + E)
                (pending_count i w) w ps trace d HL Hat)
      as (ps' & Hincl & Hat').
    apply (at_raw _ _ _ _ _ _ e t0) in Hat'.
    assert (Hps' : Forall (fun p => p <= t0 + E) (ps' ++ [t_prev + E])).
    { apply Forall_app. split.
      - rewrite Forall_forall in *. intros x Hx.
        specialize (Hps x (Hincl x Hx)). simpl in Hps. lia.
      - constructor; [lia | constructor]. }
    rewrite Hd in Hat'.
    rewrite (schedule_latest _ _ Hps') in Hat'.
    replace (Z.of_nat (List.length (ps' ++ [t_prev + E])) + 1)
      with (Z.of_nat (List.length ((ps' ++ [t_prev + E]) ++ [t0 + E])))
      in Hat' by (rewrite !length_app; simpl; lia).
    apply (IH _ _ _ _ Hd Hgap Hrest Hps' Hat').
Qed.

(** A whole burst, starting from an idle activation. *)
Lemma run_burst :
  forall sched gap_ok i d E w trace events t_last e_last before,
    timer_delay d = E ->
    (forall g w', gap_ok g = true -> g < E \/ (g = E /\ sched w' = false)) ->
    at_ i w 0 [] true trace d ->
    events = before ++ [(t_last, e_last)] ->
    spaced gap_ok (map fst events) = true ->
    at_ i (run sched i events w) 0 [] true (trace ++ [t_last + E]) d.
Proof.
  intros sched gap_ok i d E w trace events t_last e_last before
         Hd Hgap Hat Hev Hsp.
  assert (Hlast : forall x, last (map fst events) x = t_last).
  { intros x. subst events. rewrite map_app. simpl. apply last_last. }
  destruct events as [|[t1 e1] rest].
  { destruct before; discriminate. }
  unfold run. cbn [deliver]. unfold advance.
  rewrite (at_pending_count _ _ _ _ _ _ _ Hat). cbn [List.length fire_due].
  apply (at_raw _ _ _ _ _ _ e1 t1) in Hat.
  rewrite Hd in Hat.
  cbn [schedule] in Hat.
  destruct (deliver_burst sched gap_ok i d E rest _ [] t1 trace Hd Hgap Hsp
              (Forall_nil _) Hat) as (ps' & Hat').
  cbn [map fst] in Hlast. specialize (Hlast 0).
  rewrite last_cons_default in Hlast. rewrite Hlast in Hat'.
  unfold flush. rewrite (at_pending_count _ _ _ _ _ _ _ Hat').
  apply flush_n_all. exact Hat'.
Qed.

(** Events further apart than the delay: the timer of each event has run,
    and has notified, before the next event arrives. *)
Lemma run_separate_from :
  forall sched i d E events w t_prev trace,
    timer_delay d = E ->
    at_ i w 1 [t_prev + E] true trace d ->
    spaced (fun gap => E <? gap) (t_prev :: map fst events) = true ->
    at_ i (flush i (deliver sched i events w)) 0 [] true
        (trace ++ map (fun t0 => t0 + E) (t_prev :: map fst events)) d.
Proof.
  intros sched i d E events.
  induction events as [|[t0 e] rest IH]; intros w t_prev trace Hd Hat Hsp.
  - cbn [deliver map]. unfold flush.
    rewrite (at_pending_count _ _ _ _ _ _ _ Hat). cbn [List.length flush_n].
    apply at_timeout in Hat. exact Hat.
  - cbn [map fst] in *. cbn [spaced] in Hsp.
    apply andb_prop in Hsp. destruct Hsp as [Hsp Hrest].
    apply andb_prop in Hsp. destruct Hsp as [_ Hg].
    apply Z.ltb_lt in Hg.
    cbn [deliver]. unfold advance.
    rewrite (at_pending_count _ _ _ _ _ _ _ Hat). cbn [List.length fire_due].
    rewrite (at_next_due _ _ _ _ _ _ _ Hat). cbn [hd_error].
    destruct (Z.ltb_spec (t_prev + E) t0); [|lia]. cbn [orb].
    apply at_timeout in Hat. cbn in Hat.
    apply (at_raw _ _ _ _ _ _ e t0) in Hat.
    rewrite Hd in Hat.
    cbn in Hat.
    specialize (IH _ _ _ Hd Hat Hrest).
    rewrite <- app_assoc in IH. exact IH.
Qed.

Lemma run_separate :
  forall sched i d E events w trace,
    timer_delay d = E ->
    at_ i w 0 [] true trace d ->
    spaced (fun gap => E <? gap) (map fst events) = true ->
    at_ i (run sched i events w) 0 [] true
        (trace ++ map (fun t0 => t0 + E) (map fst events)) d.
Proof.
  intros sched i d E [|[t1 e1] rest] w trace Hd Hat Hsp.
  - unfold run, flush. cbn [deliver map].
    rewrite (at_pending_count _ _ _ _ _ _ _ Hat). cbn.
    rewrite app_nil_r. exact Hat.
  - unfold run. cbn [deliver]. unfold advance.
    rewrite (at_pending_count _ _ _ _ _ _ _ Hat). cbn [List.length fire_due].
    apply (at_raw _ _ _ _ _ _ e1 t1) in Hat.
    rewrite Hd in Hat.
    cbn in Hat.
    apply (run_separate_from sched i d E rest _ t1 trace Hd Hat Hsp).
Qed.

Lemma at_fresh :
  forall i w,
    nth_error (activations w) i = Some fresh_activation ->
    at_ i w 0 [] true (dispatched w) (minimumDelayMS w).
Proof. intros i w H. repeat split. exact H. Qed.

(** ** Bursts *)

(** The delay that [setTimeout] applies is the interval itself as long as
    that is a non-negative 32-bit integer, and never more than a
    non-negative interval. *)
Lemma timer_delay_in_range :
  forall d, 0 <= d < 2147483648 -> timer_delay d = d.
Proof.
  intros d Hd. unfold timer_delay, to_int32.
  rewrite Z.mod_small by lia.
  destruct (Z.ltb_spec d 2147483648); lia.
Qed.

Lemma timer_delay_le :
  forall d, 0 <= d -> 0 <= timer_delay d <= d.
Proof.
  intros d Hd. unfold timer_delay, to_int32.
  pose proof (Z.mod_pos_bound d 4294967296 ltac:(lia)) as Hm.
  pose proof (Z.mod_le d 4294967296 Hd ltac:(lia)) as Hle.
  destruct (Z.ltb_spec (d mod 4294967296) 2147483648); lia.
Qed.

(** [run] for activation [i] leaves the other activations as they are. *)
Lemma raw_elsewhere :
  forall i j e now w,
    j <> i ->
    nth_error (activations (raw i e now w)) j = nth_error (activations w) j.
Proof.
  intros i j e now w Hj. unfold raw.
  destruct (nth_error (activations w) i) as [a|]; [|reflexivity].
  destruct (fs_open a); [|reflexivity]. simpl.
  apply nth_error_replace_nth_other. congruence.
Qed.

Lemma timeout_elsewhere :
  forall i j w,
    j <> i ->
    nth_error (activations (fst (timeout i w))) j
    = nth_error (activations w) j.
Proof.
  intros i j w Hj. unfold timeout.
  destruct (nth_error (activations w) i) as [a|]; [|reflexivity].
  destruct (pending a); [reflexivity|].
  destruct (outstanding a - 1 =? 0); simpl;
    apply nth_error_replace_nth_other; congruence.
Qed.

Lemma fire_due_elsewhere :
  forall sched i j t0 n w,
    j <> i ->
    nth_error (activations (fire_due sched i t0 n w)) j
    = nth_error (activations w) j.
Proof.
  intros sched i j t0 n. induction n as [|n IH]; intros w Hj; [reflexivity|].
  simpl. destruct (next_due i w) as [due|]; [|reflexivity].
  destruct ((due <? t0) || ((due =? t0) && sched w)); [|reflexivity].
  rewrite IH by exact Hj. apply timeout_elsewhere, Hj.
Qed.

Lemma flush_n_elsewhere :
  forall i j n w,
    j <> i ->
    nth_error (activations (flush_n i n w)) j = nth_error (activations w) j.
Proof.
  intros i j n. induction n as [|n IH]; intros w Hj; [reflexivity|].
  simpl. rewrite IH by exact Hj. apply timeout_elsewhere, Hj.
Qed.

Lemma run_elsewhere :
  forall sched i j events w,
    j <> i ->
    nth_error (activations (run sched i events w)) j
    = nth_error (activations w) j.
Proof.
  intros sched i j events w Hj. unfold run, flush.
  rewrite flush_n_elsewhere by exact Hj.
  revert w. induction events as [|[t0 e] rest IH]; intros w; [reflexivity|].
  cbn [deliver]. rewrite IH. rewrite raw_elsewhere by exact Hj.
  unfold advance. apply fire_due_elsewhere, Hj.
Qed.

(** When activation [i] is alone and ends up idle, no timer is left in the
    watcher. *)
Lemma run_leaves_no_timer :
  forall sched i events w,
    alone i w ->
    nth_error (activations (run sched i events w)) i = Some fresh_activation ->
    total_pending (run sched i events w) = O.
Proof.
  intros sched i events w Halone Hi. unfold total_pending.
  assert (H : forall j a,
             nth_error (activations (run sched i events w)) j = Some a ->
             pending a = []).
  { intros j a Hj. destruct (Nat.eq_dec j i) as [->|Hne].
    - rewrite Hi in Hj. injection Hj as <-. reflexivity.
    - rewrite run_elsewhere in Hj by exact Hne.
      apply (Halone j a Hne Hj). }
  revert H. generalize (activations (run sched i events w)).
  induction l as [|a l IH]; intros H; [reflexivity|]. simpl.
  rewrite (H O a eq_refl). simpl. apply IH.
  intros j b Hj. apply (H (S j) b Hj).
Qed.

(** C1, as amended: for a debounce interval from 0 to 2^31 - 1, a non-empty
    sequence of raw events whose consecutive arrival times are strictly less
    than the interval apart, fed to an idle activation that is the only live
    one of the watcher, makes the watcher dispatch exactly one "updated"
    event, at the arrival time of the last raw event plus the interval,
    whichever way the runtime orders a timer and an event that fall on the
    same instant; nothing is dispatched earlier, and afterwards no timer is
    left in the watcher. *)
Theorem burst_notifies_once_after_last_event :
  forall (sched : t -> bool) (i : nat) (w : t)
         (before : list (Z * FsEvent)) (t_last : Z) (e_last : FsEvent),
    0 <= minimumDelayMS w < 2147483648 ->
    nth_error (activations w) i = Some fresh_activation ->
    alone i w ->
    spaced (fun gap => gap <? minimumDelayMS w)
           (map fst (before ++ [(t_last, e_last)])) = true ->
    let w' := run sched i (before ++ [(t_last, e_last)]) w in
    dispatched w' = dispatched w ++ [t_last + minimumDelayMS w]
    /\ nth_error (activations w') i = Some fresh_activation
    /\ total_pending w' = O.
Proof.
  intros sched i w before t_last e_last Hd Hfresh Halone Hsp w'.
  assert (H : at_ i w' 0 [] true
                  (dispatched w ++ [t_last + minimumDelayMS w])
                  (minimumDelayMS w)).
  { eapply (run_burst sched (fun gap => gap <? minimumDelayMS w));
      [apply timer_delay_in_range, Hd | | apply at_fresh, Hfresh
       | reflexivity | exact Hsp].
    intros g w0 Hg. left. apply Z.ltb_lt, Hg. }
  destruct H as (Hn & Ht & _).
  split; [exact Ht|]. split; [exact Hn|].
  apply run_leaves_no_timer; assumption.
Qed.

Lemma started_watcher_alone : alone 0 started_watcher.
Proof.
  intros j a Hj Hn. destruct j as [|j]; [congruence|].
  vm_compute in Hn. destruct j; discriminate Hn.
Qed.

(** The scenario of the specification: interval 200, events at 0, 50, 120. *)
Lemma burst_notifies_once_after_last_event_witness :
  0 <= minimumDelayMS started_watcher < 2147483648
  /\ nth_error (activations started_watcher) 0 = Some fresh_activation
  /\ alone 0 started_watcher
  /\ spaced (fun gap => gap <? minimumDelayMS started_watcher)
            (map fst ([(0, modify_event); (50, modify_event)]
                        ++ [(120, modify_event)])) = true
  /\ dispatched
       (run timers_first 0
            ([(0, modify_event); (50, modify_event)] ++ [(120, modify_event)])
            started_watcher)
     = [320].
Proof.
  assert (Hd : 0 <= minimumDelayMS started_watcher < 2147483648)
    by (vm_compute; split; [discriminate | reflexivity]).
  split; [exact Hd|]. split; [reflexivity|].
  split; [exact started_watcher_alone|]. split; [reflexivity|].
  exact (proj1 (burst_notifies_once_after_last_event timers_first 0
                  started_watcher [(0, modify_event); (50, modify_event)]
                  120 modify_event Hd eq_refl started_watcher_alone
                  eq_refl)).
Defined.

(** The same with gaps of up to exactly the interval, for a runtime that
    hands over an arriving event before it runs a timer due at that time. *)
Lemma burst_notifies_once_events_first :
  forall (i : nat) (w : t)
         (before : list (Z * FsEvent)) (t_last : Z) (e_last : FsEvent),
    0 <= minimumDelayMS w < 2147483648 ->
    nth_error (activations w) i = Some fresh_activation ->
    spaced (fun gap => gap <=? minimumDelayMS w)
           (map fst (before ++ [(t_last, e_last)])) = true ->
    dispatched (run events_first i (before ++ [(t_last, e_last)]) w)
    = dispatched w ++ [t_last + minimumDelayMS w].
Proof.
  intros i w before t_last e_last Hd Hfresh Hsp.
  assert (H : at_ i (run events_first i (before ++ [(t_last, e_last)]) w)
                  0 [] true
                  (dispatched w ++ [t_last + minimumDelayMS w])
                  (minimumDelayMS w)).
  { eapply (run_burst events_first (fun gap => gap <=? minimumDelayMS w));
      [apply timer_delay_in_range, Hd | | apply at_fresh, Hfresh
       | reflexivity | exact Hsp].
    intros g w0 Hg. apply Z.leb_le in Hg.
    destruct (Z.eq_dec g (minimumDelayMS w)) as [E|N];
      [right; split; [exact E | reflexivity] | left; lia]. }
  destruct H as (_ & Ht & _). exact Ht.
Qed.

(** Outside that range the interval is not the delay of the timers.  With
    an interval of 2^32 + 100 the timers run 100 after each event, so two
    events 150 apart, closer than the interval, are notified separately;
    with a negative interval the timer runs at the arrival time itself. *)
Lemma interval_outside_timer_range :
  spaced (fun gap => gap <? minimumDelayMS (watcher_with_delay 4294967396))
         (map fst [(0, modify_event); (150, modify_event)]) = true
  /\ dispatched (run timers_first 0 [(0, modify_event); (150, modify_event)]
                     (watcher_with_delay 4294967396))
     = [100; 250]
  /\ dispatched (run timers_first 0 [(10, modify_event)]
                     (watcher_with_delay (-50)))
     = [10].
Proof. repeat split; vm_compute; reflexivity. Qed.

(** C1, as stated, fails when two events are exactly the interval apart and
    the timer of the first runs before the second is handled: the watcher
    then notifies twice, at 200 and at 400. *)
Lemma burst_at_exact_interval_notifies_twice :
  0 <= minimumDelayMS started_watcher
  /\ nth_error (activations started_watcher) 0 = Some fresh_activation
  /\ spaced (fun gap => gap <=? minimumDelayMS started_watcher)
            (map fst [(0, modify_event); (200, modify_event)]) = true
  /\ dispatched (run timers_first 0
                     [(0, modify_event); (200, modify_event)] started_watcher)
     = [200; 400]
  /\ dispatched (run timers_first 0
                     [(0, modify_event); (200, modify_event)] started_watcher)
     <> dispatched started_watcher ++ [200 + minimumDelayMS started_watcher].
Proof.
  repeat split; try reflexivity; vm_compute; discriminate.
Qed.

(** C2: for a non-negative debounce interval, two raw events whose arrival
    times differ by strictly more than the interval, with nothing in between
    and fed to an idle activation that is the only live one of the watcher,
    make the watcher dispatch two "updated" events, one for each: at the
    arrival time of the first plus the delay of its timer, and at that of
    the second plus the delay of its timer.  That delay is the one
    [setTimeout] makes of the interval: the interval itself when it is below
    2^31.  Afterwards no timer is left in the watcher. *)
Theorem separate_events_notify_separately :
  forall (sched : t -> bool) (i : nat) (w : t)
         (t1 t2 : Z) (e1 e2 : FsEvent),
    0 <= minimumDelayMS w ->
    nth_error (activations w) i = Some fresh_activation ->
    alone i w ->
    minimumDelayMS w < t2 - t1 ->
    let w' := run sched i [(t1, e1); (t2, e2)] w in
    dispatched w'
    = dispatched w ++ [t1 + timer_delay (minimumDelayMS w);
                       t2 + timer_delay (minimumDelayMS w)]
    /\ (minimumDelayMS w < 2147483648 ->
        timer_delay (minimumDelayMS w) = minimumDelayMS w)
    /\ total_pending w' = O.
Proof.
  intros sched i w t1 t2 e1 e2 Hd Hfresh Halone Hgap w'.
  pose proof (timer_delay_le _ Hd) as HE.
  destruct (run_separate sched i (minimumDelayMS w)
              (timer_delay (minimumDelayMS w)) [(t1, e1); (t2, e2)]
              w (dispatched w) eq_refl (at_fresh _ _ Hfresh))
    as (Hn & Ht & _).
  - cbn. destruct (Z.leb_spec t1 t2); [|lia].
    destruct (Z.ltb_spec (timer_delay (minimumDelayMS w)) (t2 - t1));
      [reflexivity|lia].
  - split; [exact Ht|]. split.
    + intros Hlt. apply timer_delay_in_range. lia.
    + apply run_leaves_no_timer; assumption.
Qed.

Lemma separate_events_notify_separately_witness :
  0 <= minimumDelayMS started_watcher
  /\ nth_error (activations started_watcher) 0 = Some fresh_activation
  /\ alone 0 started_watcher
  /\ minimumDelayMS started_watcher < 201 - 0
  /\ dispatched (run timers_first 0 [(0, modify_event); (201, modify_event)]
                     started_watcher)
     = [200; 401].
Proof.
  assert (Hd : 0 <= minimumDelayMS started_watcher)
    by (vm_compute; discriminate).
  assert (Hgap : minimumDelayMS started_watcher < 201 - 0)
    by (vm_compute; reflexivity).
  split; [exact Hd|]. split; [reflexivity|].
  split; [exact started_watcher_alone|]. split; [exact Hgap|].
  exact (proj1 (separate_events_notify_separately timers_first 0
                  started_watcher 0 201 modify_event modify_event
                  Hd eq_refl started_watcher_alone Hgap)).
Defined.

(** ** The counter and the timers, along every execution *)

Lemma counted_nth :
  forall (l : list Activation) i a,
    Forall counted l -> nth_error l i = Some a -> counted a.
Proof.
  intros l i a Hl Hn. rewrite Forall_forall in Hl.
  apply Hl. eapply nth_error_In. eassumption.
Qed.

Lemma on_abort_activation :
  forall w l j a,
    nth_error (activations w) j = Some a ->
    nth_error (activations (on_abort w l)) j
    = Some (if Nat.eqb j l then close_handle a else a).
Proof.
  intros w l j a Hj. unfold on_abort. simpl.
  destruct (Nat.eqb_spec j l) as [->|Hne].
  - rewrite Hj. simpl. eapply nth_error_replace_nth_same. eassumption.
  - destruct (nth_error (activations w) l); simpl; [|exact Hj].
    rewrite nth_error_replace_nth_other by congruence. exact Hj.
Qed.

Lemma abort_listeners_activation :
  forall ls w j a,
    nth_error (activations w) j = Some a ->
    nth_error (activations (fold_left on_abort ls w)) j
    = Some (if existsb (Nat.eqb j) ls then close_handle a else a).
Proof.
  induction ls as [|l ls IH]; intros w j a Hj; simpl; [exact Hj|].
  rewrite (IH _ _ _ (on_abort_activation w l j a Hj)).
  destruct (Nat.eqb j l); simpl; [|reflexivity].
  destruct (existsb (Nat.eqb j) ls); reflexivity.
Qed.

Lemma on_abort_length :
  forall w l,
    List.length (activations (on_abort w l)) = List.length (activations w).
Proof.
  intros w l. unfold on_abort. simpl.
  destruct (nth_error (activations w) l); simpl;
    [apply length_replace_nth | reflexivity].
Qed.

Lemma on_abort_dispatched :
  forall w l, dispatched (on_abort w l) = dispatched w.
Proof.
  intros w l. unfold on_abort. simpl.
  destruct (nth_error (activations w) l); reflexivity.
Qed.

Lemma abort_listeners_dispatched :
  forall ls w, dispatched (fold_left on_abort ls w) = dispatched w.
Proof.
  induction ls as [|l ls IH]; intros w; simpl; [reflexivity|].
  rewrite IH. apply on_abort_dispatched.
Qed.

Lemma on_abort_counted :
  forall w l,
    Forall counted (activations w) ->
    Forall counted (activations (on_abort w l)).
Proof.
  intros w l H. unfold on_abort. simpl.
  destruct (nth_error (activations w) l) as [a|] eqn:E; simpl; [|exact H].
  apply Forall_replace_nth; [exact H|].
  apply (counted_nth _ _ _ H E).
Qed.

Lemma abort_listeners_counted :
  forall ls w,
    Forall counted (activations w) ->
    Forall counted (activations (fold_left on_abort ls w)).
Proof.
  induction ls as [|l ls IH]; intros w H; simpl; [exact H|].
  apply IH, on_abort_counted, H.
Qed.

Lemma abort_listeners_watching :
  forall ls w,
    ls <> [] -> watching (fold_left on_abort ls w) = false.
Proof.
  induction ls as [|l ls IH]; intros w H; [congruence|]. simpl.
  destruct ls as [|l' ls']; [reflexivity|].
  apply IH. discriminate.
Qed.

Lemma step_counted :
  forall w a,
    Forall counted (activations w) ->
    Forall counted (activations (step w a)).
Proof.
  intros w [| l | i e now | i |] H; simpl.
  - unfold watch. destruct (watching w); simpl; [exact H|].
    destruct (abortSignal w); simpl;
      (apply Forall_app; split; [exact H | repeat constructor]).
  - exact H.
  - unfold raw. destruct (nth_error (activations w) i) as [a|] eqn:E;
      [|exact H].
    destruct (fs_open a); [|exact H]. simpl.
    apply Forall_replace_nth; [exact H|].
    unfold counted. simpl. rewrite length_schedule.
    rewrite (counted_nth _ _ _ H E). lia.
  - unfold timeout. destruct (nth_error (activations w) i) as [a|] eqn:E;
      [|exact H].
    destruct (pending a) as [|now rest] eqn:Ep; [exact H|].
    assert (Hc : counted {| outstanding := outstanding a - 1;
                            pending := rest; fs_open := fs_open a |}).
    { unfold counted. simpl. rewrite (counted_nth _ _ _ H E), Ep.
      simpl List.length. lia. }
    destruct (outstanding a - 1 =? 0); simpl;
      apply Forall_replace_nth; assumption.
  - unfold abort. destruct (abortSignal w) as [s|]; [|exact H].
    destruct (aborted s); [exact H|].
    apply abort_listeners_counted. exact H.
Qed.

Lemma exec_counted :
  forall acts w,
    Forall counted (activations w) ->
    Forall counted (activations (exec w acts)).
Proof.
  unfold exec. induction acts as [|a acts IH]; intros w H; simpl;
    [exact H | apply IH, step_counted, H].
Qed.

Lemma step_dispatches_only_in_timeout :
  forall w a, is_timeout a = false -> dispatched (step w a) = dispatched w.
Proof.
  intros w [| l | i e now | i |] H; simpl in *; try discriminate.
  - unfold watch. destruct (watching w); simpl; [reflexivity|].
    destruct (abortSignal w); reflexivity.
  - reflexivity.
  - unfold raw. destruct (nth_error (activations w) i) as [a|]; [|reflexivity].
    destruct (fs_open a); reflexivity.
  - unfold abort. destruct (abortSignal w) as [s|]; [|reflexivity].
    destruct (aborted s); [reflexivity|].
    rewrite abort_listeners_dispatched. reflexivity.
Qed.

(** C10: in every state that a watcher reaches from its construction by any
    sequence of method calls and runtime callbacks, the [outstanding] counter
    of each activation equals the number of its timers that have been set
    and have not run, so it is never negative; a step dispatches "updated"
    exactly when it is a timer callback that finds the counter at 1 (and so
    brings it to 0), and then it dispatches once. *)
Theorem outstanding_counts_pending_timers :
  forall (options : WatcherOptions) (acts : list Action)
         (i : nat) (a : Activation),
    nth_error (activations (exec (new_ options) acts)) i = Some a ->
    let w := exec (new_ options) acts in
    outstanding a = Z.of_nat (List.length (pending a))
    /\ 0 <= outstanding a
    /\ (forall act, is_timeout act = false ->
                    dispatched (step w act) = dispatched w)
    /\ (pending a = [] -> step w (Timeout i) = w)
    /\ (forall now rest,
          pending a = now :: rest ->
          nth_error (activations (step w (Timeout i))) i
          = Some {| outstanding := outstanding a - 1; pending := rest;
                    fs_open := fs_open a |}
          /\ dispatched (step w (Timeout i))
             = if outstanding a =? 1 then dispatched w ++ [now]
               else dispatched w).
Proof.
  intros options acts i a Hn w.
  assert (Hc : counted a).
  { eapply counted_nth; [|exact Hn].
    apply exec_counted. constructor. }
  repeat split.
  - exact Hc.
  - rewrite Hc. lia.
  - intros act Hact. apply step_dispatches_only_in_timeout, Hact.
  - intros Hp. subst w. cbn [step]. unfold timeout. rewrite Hn, Hp.
    reflexivity.
  - destruct a as [out queue open_]. simpl in *. subst queue.
    assert (Hat : at_ i w out (now :: rest) open_ (dispatched w)
                      (minimumDelayMS w)) by (repeat split; exact Hn).
    apply at_timeout in Hat. destruct Hat as (Hn' & _). exact Hn'.
  - destruct a as [out queue open_]. simpl in *. subst queue.
    assert (Hat : at_ i w out (now :: rest) open_ (dispatched w)
                      (minimumDelayMS w)) by (repeat split; exact Hn).
    apply at_timeout in Hat. destruct Hat as (_ & Ht & _). rewrite Ht.
    destruct (Z.eqb_spec (out - 1) 0), (Z.eqb_spec out 1);
      try reflexivity; lia.
Qed.

Lemma outstanding_counts_pending_timers_witness :
  nth_error
    (activations
       (exec (new_ server_watcher_options) [CallWatch; Raw 0 modify_event 0]))
    0
  = Some {| outstanding := 1; pending := [200]; fs_open := true |}
  /\ dispatched
       (step (exec (new_ server_watcher_options)
                   [CallWatch; Raw 0 modify_event 0])
             (Timeout 0))
     = [200].
Proof.
  split; [reflexivity|].
  exact (proj2
           (proj2 (proj2 (proj2 (proj2
              (outstanding_counts_pending_timers server_watcher_options
                 [CallWatch; Raw 0 modify_event 0] 0
                 {| outstanding := 1; pending := [200]; fs_open := true |}
                 eq_refl))))
              200 [] eq_refl)).
Defined.

(** ** Starting twice *)

Lemma watch_watching : forall w, watching (watch w) = true.
Proof.
  intros w. unfold watch. destruct (watching w) eqn:E; simpl; [exact E|].
  destruct (abortSignal w); reflexivity.
Qed.

Lemma watch_active :
  forall w, watching w = true -> watch w = log (monitoring_line w) w.
Proof. intros w H. unfold watch. rewrite H. reflexivity. Qed.

Lemma iter_watch_active :
  forall n w,
    watching w = true ->
    quiet (Nat.iter n watch w) = quiet w
    /\ watching (Nat.iter n watch w) = true.
Proof.
  induction n as [|n IH]; intros w H; [split; [reflexivity|exact H]|].
  destruct (IH w H) as [Hq Hw].
  rewrite Nat.iter_succ, (watch_active _ Hw). split; [exact Hq | exact Hw].
Qed.

(** C9: [watch()] on a watcher that is already watching changes nothing but
    the console, to which it adds its status line: no field of the watcher
    changes, no activation (monitoring loop) is added and no abort listener
    is registered, however often it is called; so calling it twice leaves the
    watcher as calling it once does.  Called any number of times on a newly
    constructed watcher, it creates exactly one activation. *)
Theorem watch_is_idempotent_while_active :
  forall (w : t) (n : nat),
    watching w = true ->
    watch w = log (monitoring_line w) w
    /\ quiet (watch w) = quiet w
    /\ quiet (watch (watch w)) = quiet (watch w)
    /\ quiet (Nat.iter n watch w) = quiet w
    /\ activations (Nat.iter n watch w) = activations w
    /\ abortSignal (Nat.iter n watch w) = abortSignal w
    /\ (forall options,
          activations (Nat.iter (S n) watch (new_ options))
          = [fresh_activation]).
Proof.
  intros w n H.
  pose proof (watch_active w H) as Hw.
  pose proof (iter_watch_active n w H) as [Hq _].
  repeat split.
  - exact Hw.
  - rewrite Hw. reflexivity.
  - rewrite (watch_active (watch w) (watch_watching w)). reflexivity.
  - exact Hq.
  - change (activations (quiet (Nat.iter n watch w)) = activations (quiet w)).
    now rewrite Hq.
  - change (abortSignal (quiet (Nat.iter n watch w)) = abortSignal (quiet w)).
    now rewrite Hq.
  - intros options.
    rewrite Nat.iter_succ_r.
    pose proof (iter_watch_active n (watch (new_ options))
                  (watch_watching _)) as [Hq' _].
    change (activations (quiet (Nat.iter n watch (watch (new_ options))))
            = [fresh_activation]).
    rewrite Hq'. unfold watch. simpl.
    destruct (opt_abortSignal options); reflexivity.
Qed.

Lemma watch_is_idempotent_while_active_witness :
  watching started_watcher = true
  /\ activations (watch (watch started_watcher)) = [fresh_activation].
Proof.
  split; [reflexivity|].
  exact (proj1 (proj2 (proj2 (proj2 (proj2
           (watch_is_idempotent_while_active started_watcher 2 eq_refl)))))).
Defined.

(** ** Cancellation *)

(** C8: when the abort signal fires, the watcher stops watching and the
    handle of the activation that listens to the signal is closed, so that
    no further raw event is handled; but every timer already set stays in
    the queue and every counter keeps its value, nothing being dispatched by
    the cancellation itself.  Such a timer still runs afterwards, and if it
    finds the counter at 1 it dispatches "updated" although the watcher has
    been cancelled. *)
Theorem abort_keeps_scheduled_timers :
  forall (w : t) (s : AbortSignal) (i : nat) (a : Activation),
    abortSignal w = Some s ->
    aborted s = false ->
    In i (abort_listeners s) ->
    nth_error (activations w) i = Some a ->
    let w' := abort w in
    watching w' = false
    /\ nth_error (activations w') i = Some (close_handle a)
    /\ (forall e now, raw i e now w' = w')
    /\ (forall j b,
          nth_error (activations w) j = Some b ->
          exists b',
            nth_error (activations w') j = Some b'
            /\ pending b' = pending b /\ outstanding b' = outstanding b)
    /\ dispatched w' = dispatched w
    /\ (forall now rest,
          pending a = now :: rest ->
          nth_error (activations (fst (timeout i w'))) i
          = Some {| outstanding := outstanding a - 1; pending := rest;
                    fs_open := false |}
          /\ (outstanding a = 1 ->
              dispatched (fst (timeout i w')) = dispatched w ++ [now])).
Proof.
  intros w s i a Hs Hna Hin Hn w'.
  assert (Hw' : w' = fold_left on_abort (abort_listeners s)
                       (set_abortSignal
                          (Some {| aborted := true;
                                   abort_listeners := abort_listeners s |}) w)).
  { unfold w', abort. rewrite Hs, Hna. reflexivity. }
  assert (Hi : existsb (Nat.eqb i) (abort_listeners s) = true).
  { apply existsb_exists. exists i. split; [exact Hin | apply Nat.eqb_refl]. }
  assert (Hact : nth_error (activations w') i = Some (close_handle a)).
  { rewrite Hw'.
    rewrite (abort_listeners_activation _ _ i a) by exact Hn.
    rewrite Hi. reflexivity. }
  assert (Hd : dispatched w' = dispatched w).
  { rewrite Hw', abort_listeners_dispatched. reflexivity. }
  split; [|split; [|split; [|split; [|split]]]].
  - rewrite Hw'. apply abort_listeners_watching.
    intros E. rewrite E in Hin. exact Hin.
  - exact Hact.
  - intros e now. unfold raw. rewrite Hact. reflexivity.
  - intros j b Hj. rewrite Hw'.
    rewrite (abort_listeners_activation _ _ j b) by exact Hj.
    destruct (existsb (Nat.eqb j) (abort_listeners s));
      eexists; split; try reflexivity; split; reflexivity.
  - exact Hd.
  - intros now rest Hp.
    assert (Hat : at_ i w' (outstanding a) (now :: rest) false
                      (dispatched w) (minimumDelayMS w')).
    { repeat split; [|exact Hd]. rewrite Hact. unfold close_handle.
      rewrite Hp. reflexivity. }
    apply at_timeout in Hat. destruct Hat as (Hn' & Ht & _).
    split; [exact Hn'|].
    intros H1. rewrite Ht, H1. reflexivity.
Qed.

Lemma abort_keeps_scheduled_timers_witness :
  abortSignal abortable_watcher
  = Some {| aborted := false; abort_listeners := [0%nat] |}
  /\ nth_error (activations abortable_watcher) 0
     = Some {| outstanding := 1; pending := [200]; fs_open := true |}
  /\ watching (abort abortable_watcher) = false
  /\ dispatched (fst (timeout 0 (abort abortable_watcher))) = [200].
Proof.
  pose (H := abort_keeps_scheduled_timers abortable_watcher
               {| aborted := false; abort_listeners := [0%nat] |} 0
               {| outstanding := 1; pending := [200]; fs_open := true |}
               eq_refl eq_refl (or_introl eq_refl) eq_refl).
  split; [reflexivity|]. split; [reflexivity|].
  split; [exact (proj1 H)|].
  exact (proj2 (proj2 (proj2 (proj2 (proj2 (proj2 H)))) 200 [] eq_refl)
           eq_refl).
Defined.

(** ** Listeners *)

Lemma watch_listeners : forall w, listeners (watch w) = listeners w.
Proof.
  intros w. unfold watch. destruct (watching w); simpl; [reflexivity|].
  destruct (abortSignal w); reflexivity.
Qed.

Lemma raw_listeners :
  forall i e now w, listeners (raw i e now w) = listeners w.
Proof.
  intros i e now w. unfold raw.
  destruct (nth_error (activations w) i) as [a|]; [|reflexivity].
  destruct (fs_open a); reflexivity.
Qed.

Lemma timeout_listeners :
  forall i w, listeners (fst (timeout i w)) = listeners w.
Proof.
  intros i w. unfold timeout.
  destruct (nth_error (activations w) i) as [a|]; [|reflexivity].
  destruct (pending a); [reflexivity|].
  destruct (outstanding a - 1 =? 0); reflexivity.
Qed.

(** A timer callback either dispatches nothing and calls no listener, or
    dispatches once and calls every listener. *)
Lemma timeout_calls :
  forall i w,
    (snd (timeout i w) = [] /\ dispatched (fst (timeout i w)) = dispatched w)
    \/ (snd (timeout i w) = listeners w
        /\ exists now,
             dispatched (fst (timeout i w)) = dispatched w ++ [now]).
Proof.
  intros i w. unfold timeout.
  destruct (nth_error (activations w) i) as [a|]; [|left; split; reflexivity].
  destruct (pending a) as [|now rest]; [left; split; reflexivity|].
  destruct (outstanding a - 1 =? 0); simpl.
  - right. split; [reflexivity | exists now; reflexivity].
  - left. split; reflexivity.
Qed.

(** * Further properties of the watcher *)

(** ** Any sequence of raw events *)

Lemma burst_ends_cons2 :
  forall d t1 t2 l,
    burst_ends d (t1 :: t2 :: l)
    = if d <? t2 - t1 then t1 :: burst_ends d (t2 :: l)
      else burst_ends d (t2 :: l).
Proof. reflexivity. Qed.

(** When every timer in the queue is due before [t0], all of them run before
    the event arriving at [t0] is handled, and the last one notifies. *)
Lemma fire_due_all :
  forall sched i t0 L ps w open_ trace d,
    Forall (fun p => p < t0) (ps ++ [L]) ->
    at_ i w (Z.of_nat (List.length (ps ++ [L]))) (ps ++ [L]) open_ trace d ->
    at_ i (fire_due sched i t0 (List.length (ps ++ [L])) w) 0 [] open_
        (trace ++ [L]) d.
Proof.
  intros sched i t0 L. induction ps as [|p ps IH]; intros w open_ trace d Hlt Hat.
  - simpl in *. rewrite (at_next_due _ _ _ _ _ _ _ Hat). simpl.
    inversion Hlt; subst.
    destruct (Z.ltb_spec L t0); [|lia]. simpl.
    apply at_timeout in Hat. exact Hat.
  - simpl List.length. cbn [fire_due].
    rewrite (at_next_due _ _ _ _ _ _ _ Hat). simpl hd_error. cbv iota.
    simpl in Hlt. inversion Hlt; subst.
    destruct (Z.ltb_spec p t0); [|lia]. cbn [orb].
    apply at_timeout in Hat.
    replace (Z.of_nat (List.length ((p :: ps) ++ [L])) - 1)
      with (Z.of_nat (List.length (ps ++ [L]))) in Hat
      by (simpl List.length; lia).
    destruct (Z.eqb_spec (Z.of_nat (List.length (ps ++ [L]))) 0) as [E|_].
    { rewrite length_app in E. simpl in E. lia. }
    apply IH; assumption.
Qed.

Lemma run_bursts_from :
  forall sched i d E events w ps t_prev trace,
    timer_delay d = E ->
    spaced (fun gap => negb (gap =? E)) (t_prev :: map fst events) = true ->
    Forall (fun p => p <= t_prev + E) ps ->
    at_ i w (Z.of_nat (List.length (ps ++ [t_prev + E])))
        (ps ++ [t_prev + E]) true trace d ->
    at_ i (flush i (deliver sched i events w)) 0 [] true
        (trace ++ map (fun t0 => t0 + E)
                      (burst_ends E (t_prev :: map fst events))) d.
Proof.
  intros sched i d E events.
  induction events as [|[t0 e] rest IH];
    intros w ps t_prev trace Hd Hsp Hps Hat.
  - cbn [deliver map burst_ends]. unfold flush.
    rewrite (at_pending_count _ _ _ _ _ _ _ Hat).
    apply flush_n_all. exact Hat.
  - cbn [map fst] in *. rewrite burst_ends_cons2.
    cbn [spaced] in Hsp.
    apply andb_prop in Hsp. destruct Hsp as [Hsp Hrest].
    apply andb_prop in Hsp. destruct Hsp as [Hle Hne].
    apply Z.leb_le in Hle. apply negb_true_iff, Z.eqb_neq in Hne.
    cbn [deliver]. unfold advance.
    destruct (Z.ltb_spec E (t0 - t_prev)) as [Hfar | Hnear].
    + (* the burst is over: every timer runs, the last one notifies *)
      rewrite (at_pending_count _ _ _ _ _ _ _ Hat).
      assert (Hlt : Forall (fun p => p < t0) (ps ++ [t_prev + E])).
      { apply Forall_app. split.
        - rewrite Forall_forall in *. intros x Hx.
          specialize (Hps x Hx). simpl in Hps. lia.
        - constructor; [lia | constructor]. }
      pose proof (fire_due_all sched i t0 _ _ _ _ _ _ Hlt Hat) as Hat'.
      apply (at_raw _ _ _ _ _ _ e t0) in Hat'.
      rewrite Hd in Hat'.
      cbn in Hat'.
      specialize (IH _ [] t0 _ Hd Hrest (Forall_nil _) Hat').
      cbn [map]. rewrite <- app_assoc in IH. exact IH.
    + (* the burst goes on: the latest timer is still pending *)
      assert (HL : forall w', (t_prev + E <? t0)
                              || ((t_prev + E =? t0) && sched w') = false).
      { intros w'.
        destruct (Z.ltb_spec (t_prev + E) t0); [lia|].
        destruct (Z.eqb_spec (t_prev + E) t0); [lia|]. reflexivity. }
      destruct (fire_due_keeps_last sched i t0 (t_prev + E)
                  (pending_count i w) w ps trace d HL Hat)
        as (ps' & Hincl & Hat').
      apply (at_raw _ _ _ _ _ _ e t0) in Hat'.
      assert (Hps' : Forall (fun p => p <= t0 + E) (ps' ++ [t_prev + E])).
      { apply Forall_app. split.
        - rewrite Forall_forall in *. intros x Hx.
          specialize (Hps x (Hincl x Hx)). simpl in Hps. lia.
        - constructor; [lia | constructor]. }
      rewrite Hd in Hat'.
      rewrite (schedule_latest _ _ Hps') in Hat'.
      replace (Z.of_nat (List.length (ps' ++ [t_prev + E])) + 1)
        with (Z.of_nat (List.length ((ps' ++ [t_prev + E]) ++ [t0 + E])))
        in Hat' by (rewrite !length_app; simpl; lia).
      apply (IH _ _ _ _ Hd Hrest Hps' Hat').
Qed.

(** X1: for raw events arriving in order at an idle activation that is the
    only live one of the watcher, with no two consecutive events exactly the
    timer delay apart, the notifications are exactly one per burst: one at
    the arrival time plus the timer delay of every event that is followed by
    a gap longer than that delay, and of the last event; afterwards no timer
    is left in the watcher.  The timer delay is the one [setTimeout] makes
    of the interval: the interval itself when it is from 0 to 2^31 - 1. *)
Theorem notifications_are_the_burst_ends :
  forall (sched : t -> bool) (i : nat) (w : t) (events : list (Z * FsEvent)),
    nth_error (activations w) i = Some fresh_activation ->
    alone i w ->
    spaced (fun gap => negb (gap =? timer_delay (minimumDelayMS w)))
           (map fst events)
    = true ->
    dispatched (run sched i events w)
    = dispatched w
      ++ map (fun t0 => t0 + timer_delay (minimumDelayMS w))
             (burst_ends (timer_delay (minimumDelayMS w)) (map fst events))
    /\ nth_error (activations (run sched i events w)) i
       = Some fresh_activation
    /\ total_pending (run sched i events w) = O
    /\ (0 <= minimumDelayMS w < 2147483648 ->
        timer_delay (minimumDelayMS w) = minimumDelayMS w).
Proof.
  intros sched i w events Hfresh Halone Hsp.
  assert (H : at_ i (run sched i events w) 0 [] true
                  (dispatched w
                     ++ map (fun t0 => t0 + timer_delay (minimumDelayMS w))
                            (burst_ends (timer_delay (minimumDelayMS w))
                                        (map fst events)))
                  (minimumDelayMS w)).
  { pose proof (at_fresh _ _ Hfresh) as Hat.
    destruct events as [|[t1 e1] rest].
    - unfold run, flush. cbn [deliver map burst_ends].
      rewrite (at_pending_count _ _ _ _ _ _ _ Hat). cbn.
      rewrite app_nil_r. exact Hat.
    - unfold run. cbn [deliver]. unfold advance.
      rewrite (at_pending_count _ _ _ _ _ _ _ Hat).
      cbn [List.length fire_due].
      apply (at_raw _ _ _ _ _ _ e1 t1) in Hat.
      cbn [schedule] in Hat.
      apply (run_bursts_from sched i _ _ rest _ [] t1 _ eq_refl Hsp
               (Forall_nil _) Hat). }
  destruct H as (Hn & Ht & _).
  split; [exact Ht|]. split; [exact Hn|].
  split; [apply run_leaves_no_timer; assumption|].
  apply timer_delay_in_range.
Qed.

Lemma notifications_are_the_burst_ends_witness :
  nth_error (activations started_watcher) 0 = Some fresh_activation
  /\ alone 0 started_watcher
  /\ spaced (fun gap =>
               negb (gap =? timer_delay (minimumDelayMS started_watcher)))
            (map fst three_bursts) = true
  /\ dispatched (run timers_first 0 three_bursts started_watcher)
     = [320; 650; 1200].
Proof.
  split; [reflexivity|]. split; [exact started_watcher_alone|].
  split; [reflexivity|].
  exact (proj1 (notifications_are_the_burst_ends timers_first 0
                  started_watcher three_bursts eq_refl started_watcher_alone
                  eq_refl)).
Defined.

(** ** Every notification answers a raw event *)

Lemma In_schedule :
  forall due queue x, In x (schedule due queue) <-> x = due \/ In x queue.
Proof.
  intros due. induction queue as [|d q IH]; intros x; simpl.
  - intuition.
  - destruct (d <=? due); simpl; [rewrite IH|]; intuition.
Qed.

Lemma on_abort_Forall :
  forall (Q : Activation -> Prop) w l,
    (forall a, Q a -> Q (close_handle a)) ->
    Forall Q (activations w) -> Forall Q (activations (on_abort w l)).
Proof.
  intros Q w l HQ H. unfold on_abort. simpl.
  destruct (nth_error (activations w) l) as [a|] eqn:E; simpl; [|exact H].
  apply Forall_replace_nth; [exact H|].
  apply HQ. rewrite Forall_forall in H. apply H.
  eapply nth_error_In. exact E.
Qed.

Lemma abort_listeners_Forall :
  forall (Q : Activation -> Prop) ls w,
    (forall a, Q a -> Q (close_handle a)) ->
    Forall Q (activations w) ->
    Forall Q (activations (fold_left on_abort ls w)).
Proof.
  intros Q. induction ls as [|l ls IH]; intros w HQ H; simpl; [exact H|].
  apply IH; [exact HQ|]. apply on_abort_Forall; assumption.
Qed.

Lemma on_abort_minimumDelayMS :
  forall w l, minimumDelayMS (on_abort w l) = minimumDelayMS w.
Proof.
  intros w l. unfold on_abort. simpl.
  destruct (nth_error (activations w) l); reflexivity.
Qed.

Lemma abort_listeners_minimumDelayMS :
  forall ls w, minimumDelayMS (fold_left on_abort ls w) = minimumDelayMS w.
Proof.
  induction ls as [|l ls IH]; intros w; simpl; [reflexivity|].
  rewrite IH. apply on_abort_minimumDelayMS.
Qed.

Lemma step_minimumDelayMS :
  forall w a, minimumDelayMS (step w a) = minimumDelayMS w.
Proof.
  intros w [| l | i e now | i |]; simpl.
  - unfold watch. destruct (watching w); simpl; [reflexivity|].
    destruct (abortSignal w); reflexivity.
  - reflexivity.
  - unfold raw. destruct (nth_error (activations w) i) as [a|]; [|reflexivity].
    destruct (fs_open a); reflexivity.
  - unfold timeout.
    destruct (nth_error (activations w) i) as [a|]; [|reflexivity].
    destruct (pending a); [reflexivity|].
    destruct (outstanding a - 1 =? 0); reflexivity.
  - unfold abort. destruct (abortSignal w) as [s|]; [|reflexivity].
    destruct (aborted s); [reflexivity|].
    rewrite abort_listeners_minimumDelayMS. reflexivity.
Qed.

(** Every timer in a queue and every notification made so far comes from
    one of the arrival times [raws], the delay [d] later. *)
Lemma step_caused :
  forall w a raws,
    let caused := fun t0 =>
                    In t0 (map (fun now => now + timer_delay (minimumDelayMS w))
                               raws) in
    let caused' := fun t0 =>
                     In t0 (map (fun now =>
                                   now + timer_delay (minimumDelayMS w))
                                (raws ++ raw_times [a])) in
    Forall (fun act => Forall caused (pending act)) (activations w) ->
    Forall caused (dispatched w) ->
    Forall (fun act => Forall caused' (pending act)) (activations (step w a))
    /\ Forall caused' (dispatched (step w a)).
Proof.
  intros w a raws caused caused' Hp Hd.
  assert (Hmono : forall t0, caused t0 -> caused' t0).
  { intros t0 H. unfold caused'. rewrite map_app. apply in_app_iff.
    left. exact H. }
  assert (Hp' : Forall (fun act => Forall caused' (pending act))
                       (activations w)).
  { eapply Forall_impl; [|exact Hp]. intros act H.
    eapply Forall_impl; [|exact H]. exact Hmono. }
  assert (Hd' : Forall caused' (dispatched w))
    by (eapply Forall_impl; [|exact Hd]; exact Hmono).
  destruct a as [| l | i e now | i |]; cbn [step fst].
  - split.
    + unfold watch. destruct (watching w); simpl; [exact Hp'|].
      destruct (abortSignal w); simpl;
        (apply Forall_app; split; [exact Hp' | repeat constructor]).
    + pose proof (step_dispatches_only_in_timeout w CallWatch eq_refl) as Hs.
      cbn [step] in Hs. rewrite Hs.
      exact Hd'.
  - split; assumption.
  - split.
    + unfold raw.
      destruct (nth_error (activations w) i) as [act|] eqn:E; [|exact Hp'].
      destruct (fs_open act); [|exact Hp']. simpl.
      apply Forall_replace_nth; [exact Hp'|]. simpl.
      apply Forall_forall. intros x Hx. apply In_schedule in Hx.
      destruct Hx as [-> | Hx].
      * unfold caused'. rewrite map_app. apply in_app_iff. right.
        simpl. left. reflexivity.
      * rewrite Forall_forall in Hp'.
        specialize (Hp' act (nth_error_In _ _ E)).
        rewrite Forall_forall in Hp'. apply Hp', Hx.
    + pose proof (step_dispatches_only_in_timeout w (Raw i e now) eq_refl) as Hs.
      cbn [step] in Hs. rewrite Hs.
      exact Hd'.
  - unfold timeout.
    destruct (nth_error (activations w) i) as [act|] eqn:E;
      [|split; assumption].
    destruct (pending act) as [|now rest] eqn:Ep; [split; assumption|].
    assert (Hact : Forall caused' (now :: rest)).
    { rewrite <- Ep. rewrite Forall_forall in Hp'.
      apply Hp'. eapply nth_error_In. exact E. }
    inversion Hact; subst.
    destruct (outstanding act - 1 =? 0); simpl; split;
      try (apply Forall_replace_nth; assumption); try assumption.
    apply Forall_app. split; [exact Hd' | repeat constructor; assumption].
  - split.
    + unfold abort. destruct (abortSignal w) as [s|]; [|exact Hp'].
      destruct (aborted s); [exact Hp'|].
      apply abort_listeners_Forall; [intros act H; exact H | exact Hp'].
    + pose proof (step_dispatches_only_in_timeout w Abort eq_refl) as Hs.
      cbn [step] in Hs. rewrite Hs. exact Hd'.
Qed.

Lemma exec_caused :
  forall acts w raws d,
    timer_delay (minimumDelayMS w) = d ->
    Forall (fun act => Forall (fun t0 => In t0 (map (fun now => now + d) raws))
                              (pending act)) (activations w) ->
    Forall (fun t0 => In t0 (map (fun now => now + d) raws)) (dispatched w) ->
    Forall (fun t0 => In t0 (map (fun now => now + d)
                                 (raws ++ raw_times acts)))
           (dispatched (exec w acts)).
Proof.
  unfold exec. induction acts as [|a acts IH]; intros w raws d Hdel Hp Hd.
  - simpl. rewrite app_nil_r. exact Hd.
  - simpl fold_left.
    destruct (step_caused w a raws) as [Hp' Hd'];
      [rewrite Hdel; exact Hp | rewrite Hdel; exact Hd |].
    rewrite Hdel in Hp', Hd'.
    specialize (IH (step w a) (raws ++ raw_times [a]) d).
    rewrite step_minimumDelayMS in IH.
    specialize (IH Hdel Hp' Hd').
    replace (raws ++ raw_times (a :: acts))
      with ((raws ++ raw_times [a]) ++ raw_times acts); [exact IH|].
    rewrite <- app_assoc. f_equal. unfold raw_times. simpl.
    rewrite app_nil_r. reflexivity.
Qed.

(** X2: whatever is called on a watcher and whatever the runtime delivers to
    it, every notification it dispatches is made at the arrival time of one
    of the raw events, plus the delay of the timers: the one [setTimeout]
    makes of [minimumDelayMS], by conversion to a 32-bit integer, a negative
    one counting as 0.  In particular a watcher that has received no raw
    event has notified nobody. *)
Theorem every_notification_follows_a_raw_event :
  forall (options : WatcherOptions) (acts : list Action) (t0 : Z),
    In t0 (dispatched (exec (new_ options) acts)) ->
    exists now,
      In now (raw_times acts)
      /\ t0 = now + timer_delay (minimumDelayMS (new_ options)).
Proof.
  intros options acts t0 Hin.
  pose proof (exec_caused acts (new_ options) []
                (timer_delay (minimumDelayMS (new_ options))) eq_refl
                (Forall_nil _) (Forall_nil _)) as H.
  rewrite Forall_forall in H. specialize (H t0 Hin). simpl in H.
  apply in_map_iff in H. destruct H as (now & Heq & Hnow).
  exists now. split; [exact Hnow | symmetry; exact Heq].
Qed.

Lemma every_notification_follows_a_raw_event_witness :
  In 320 (dispatched
            (exec (new_ server_watcher_options)
                  [CallWatch; Raw 0 modify_event 120; Timeout 0]))
  /\ exists now,
       In now (raw_times [CallWatch; Raw 0 modify_event 120; Timeout 0])
       /\ 320 = now + timer_delay (minimumDelayMS (new_ server_watcher_options)).
Proof.
  assert (H : In 320 (dispatched
                        (exec (new_ server_watcher_options)
                              [CallWatch; Raw 0 modify_event 120; Timeout 0])))
    by (left; reflexivity).
  split; [exact H|].
  exact (every_notification_follows_a_raw_event server_watcher_options
           [CallWatch; Raw 0 modify_event 120; Timeout 0] 320 H).
Defined.

(** ** No more notifications than raw events *)

Lemma list_sum_replace_nth :
  forall (A : Type) (f : A -> nat) (l : list A) (i : nat) (x a : A),
    nth_error l i = Some a ->
    (list_sum (map f (replace_nth i x l)) + f a
     = list_sum (map f l) + f x)%nat.
Proof.
  induction l as [|y l IH]; intros [|i] x a H; simpl in *; try discriminate.
  - injection H as ->. lia.
  - specialize (IH i x a H). lia.
Qed.

Lemma on_abort_total_pending :
  forall w l, total_pending (on_abort w l) = total_pending w.
Proof.
  intros w l. unfold on_abort, total_pending. simpl.
  destruct (nth_error (activations w) l) as [a|] eqn:E; simpl; [|reflexivity].
  pose proof (list_sum_replace_nth _ (fun a => List.length (pending a))
                _ _ (close_handle a) _ E) as H.
  simpl in H. lia.
Qed.

Lemma abort_listeners_total_pending :
  forall ls w, total_pending (fold_left on_abort ls w) = total_pending w.
Proof.
  induction ls as [|l ls IH]; intros w; simpl; [reflexivity|].
  rewrite IH. apply on_abort_total_pending.
Qed.

Lemma step_budget :
  forall w a,
    (List.length (dispatched (step w a)) + total_pending (step w a)
     <= List.length (dispatched w) + total_pending w
        + List.length (raw_times [a]))%nat.
Proof.
  intros w [| l | i e now | i |]; cbn [step fst raw_times flat_map];
    simpl List.length.
  - unfold watch, total_pending. destruct (watching w); simpl; [lia|].
    destruct (abortSignal w); simpl;
      rewrite map_app, list_sum_app; simpl; lia.
  - unfold total_pending. simpl. lia.
  - unfold raw, total_pending.
    destruct (nth_error (activations w) i) as [a|] eqn:E; [|lia].
    destruct (fs_open a); [|lia]. simpl.
    pose proof (list_sum_replace_nth _ (fun a => List.length (pending a))
                  _ _ {| outstanding := outstanding a + 1;
                         pending := schedule
                                      (now + timer_delay (minimumDelayMS w))
                                      (pending a);
                         fs_open := true |} _ E) as H.
    simpl in H. rewrite length_schedule in H. lia.
  - unfold timeout, total_pending.
    destruct (nth_error (activations w) i) as [a|] eqn:E; [|simpl; lia].
    destruct (pending a) as [|now rest] eqn:Ep; [simpl; lia|].
    pose proof (list_sum_replace_nth _ (fun a => List.length (pending a))
                  _ _ {| outstanding := outstanding a - 1; pending := rest;
                         fs_open := fs_open a |} _ E) as H.
    simpl in H. rewrite Ep in H. simpl in H.
    destruct (outstanding a - 1 =? 0); simpl;
      try rewrite length_app; simpl; lia.
  - unfold abort. destruct (abortSignal w) as [s|]; [|lia].
    destruct (aborted s); [lia|].
    rewrite abort_listeners_total_pending, abort_listeners_dispatched.
    unfold total_pending. simpl. lia.
Qed.

Lemma exec_budget :
  forall acts w,
    (List.length (dispatched (exec w acts)) + total_pending (exec w acts)
     <= List.length (dispatched w) + total_pending w
        + List.length (raw_times acts))%nat.
Proof.
  unfold exec. induction acts as [|a acts IH]; intros w; [simpl; lia|].
  simpl fold_left. specialize (IH (step w a)).
  pose proof (step_budget w a) as Hs.
  replace (raw_times (a :: acts)) with (raw_times [a] ++ raw_times acts)
    by (unfold raw_times; simpl; rewrite app_nil_r; reflexivity).
  rewrite length_app. lia.
Qed.

(** X3: along every execution of a watcher, the notifications dispatched so
    far and the timers still pending together never outnumber the raw events
    that have arrived; so the watcher never notifies more often than the
    file system reported changes. *)
Theorem notifications_never_outnumber_raw_events :
  forall (options : WatcherOptions) (acts : list Action),
    (List.length (dispatched (exec (new_ options) acts))
     + total_pending (exec (new_ options) acts)
     <= List.length (raw_times acts))%nat.
Proof.
  intros options acts.
  pose proof (exec_budget acts (new_ options)) as H.
  unfold total_pending in H at 2. simpl in H. exact H.
Qed.

(** ** After cancellation *)

Lemma abort_listeners_abortSignal :
  forall ls w, abortSignal (fold_left on_abort ls w) = abortSignal w.
Proof.
  induction ls as [|l ls IH]; intros w; simpl; [reflexivity|].
  rewrite IH. unfold on_abort. simpl.
  destruct (nth_error (activations w) l); reflexivity.
Qed.

Lemma abort_activation :
  forall w s i a,
    abortSignal w = Some s -> aborted s = false ->
    In i (abort_listeners s) ->
    nth_error (activations w) i = Some a ->
    at_ i (abort w) (outstanding a) (pending a) false (dispatched w)
        (minimumDelayMS w).
Proof.
  intros w s i a Hs Hna Hin Hn. unfold abort. rewrite Hs, Hna.
  assert (Hi : existsb (Nat.eqb i) (abort_listeners s) = true).
  { apply existsb_exists. exists i. split; [exact Hin | apply Nat.eqb_refl]. }
  repeat split.
  - rewrite (abort_listeners_activation _ _ i a) by exact Hn.
    rewrite Hi. reflexivity.
  - rewrite abort_listeners_dispatched. reflexivity.
  - rewrite abort_listeners_minimumDelayMS. reflexivity.
Qed.

Lemma raw_closed :
  forall i w out queue trace d e now,
    at_ i w out queue false trace d -> raw i e now w = w.
Proof.
  intros i w out queue trace d e now (Hn & _). unfold raw. rewrite Hn.
  reflexivity.
Qed.

Lemma fire_due_empty :
  forall sched i t0 n w open_ trace d,
    at_ i w 0 [] open_ trace d -> fire_due sched i t0 n w = w.
Proof.
  intros sched i t0 [|n] w open_ trace d Hat; [reflexivity|].
  simpl. rewrite (at_next_due _ _ _ _ _ _ _ Hat). reflexivity.
Qed.

(** Running timers up to some time either leaves the last timer of the
    queue pending, or runs them all, the last one notifying. *)
Lemma fire_due_partial :
  forall sched i t0 L n w ps open_ trace d,
    at_ i w (Z.of_nat (List.length (ps ++ [L]))) (ps ++ [L]) open_ trace d ->
    (exists ps',
        at_ i (fire_due sched i t0 n w)
            (Z.of_nat (List.length (ps' ++ [L]))) (ps' ++ [L]) open_ trace d)
    \/ at_ i (fire_due sched i t0 n w) 0 [] open_ (trace ++ [L]) d.
Proof.
  intros sched i t0 L. induction n as [|n IH]; intros w ps open_ trace d Hat.
  - left. exists ps. exact Hat.
  - simpl. rewrite (at_next_due _ _ _ _ _ _ _ Hat).
    destruct ps as [|p ps]; simpl.
    + destruct ((L <? t0) || ((L =? t0) && sched w)).
      * right. apply at_timeout in Hat. simpl in Hat.
        rewrite (fire_due_empty _ _ _ _ _ _ _ _ Hat). exact Hat.
      * left. exists []. exact Hat.
    + destruct ((p <? t0) || ((p =? t0) && sched w)).
      * apply at_timeout in Hat.
        replace (Z.of_nat (List.length ((p :: ps) ++ [L])) - 1)
          with (Z.of_nat (List.length (ps ++ [L]))) in Hat
          by (simpl List.length; lia).
        destruct (Z.eqb_spec (Z.of_nat (List.length (ps ++ [L]))) 0) as [E|_].
        { rewrite length_app in E. simpl in E. lia. }
        apply (IH _ ps). exact Hat.
      * left. exists (p :: ps). exact Hat.
Qed.

Lemma closed_deliver :
  forall sched i L trace d events w,
    ((exists ps,
         at_ i w (Z.of_nat (List.length (ps ++ [L]))) (ps ++ [L]) false
             trace d)
     \/ at_ i w 0 [] false (trace ++ [L]) d) ->
    (exists ps,
        at_ i (deliver sched i events w)
            (Z.of_nat (List.length (ps ++ [L]))) (ps ++ [L]) false trace d)
    \/ at_ i (deliver sched i events w) 0 [] false (trace ++ [L]) d.
Proof.
  intros sched i L trace d. induction events as [|[t0 e] rest IH]; intros w H.
  - exact H.
  - cbn [deliver]. apply IH. unfold advance.
    destruct H as [[ps Hat] | Hat].
    + destruct (fire_due_partial sched i t0 L (pending_count i w) _ _ _ _ _
                  Hat) as [[ps' Hat'] | Hat'].
      * rewrite (raw_closed _ _ _ _ _ _ e t0 Hat'). left. exists ps'.
        exact Hat'.
      * rewrite (raw_closed _ _ _ _ _ _ e t0 Hat'). right. exact Hat'.
    + rewrite (fire_due_empty _ _ _ _ _ _ _ _ Hat).
      rewrite (raw_closed _ _ _ _ _ _ e t0 Hat). right. exact Hat.
Qed.

Lemma closed_run :
  forall sched i events w queue trace d,
    at_ i w (Z.of_nat (List.length queue)) queue false trace d ->
    at_ i (run sched i events w) 0 [] false (trace ++ late queue) d.
Proof.
  intros sched i events w queue trace d Hat.
  destruct queue as [|q0 queue].
  - simpl late. rewrite app_nil_r.
    assert (Hrun : run sched i events w = w).
    { unfold run. revert Hat. induction events as [|[t0 e] rest IH]; intros Hat.
      - unfold flush. cbn [deliver].
        rewrite (at_pending_count _ _ _ _ _ _ _ Hat). reflexivity.
      - cbn [deliver]. unfold advance.
        rewrite (fire_due_empty _ _ _ _ _ _ _ _ Hat).
        rewrite (raw_closed _ _ _ _ _ _ e t0 Hat). apply IH, Hat. }
    rewrite Hrun. exact Hat.
  - assert (Hq : q0 :: queue
                 = removelast (q0 :: queue) ++ [last (q0 :: queue) 0])
      by (apply app_removelast_last; discriminate).
    cbn [late]. set (L := last (q0 :: queue) 0) in *.
    rewrite Hq in Hat.
    assert (H0 : (exists ps,
                     at_ i w (Z.of_nat (List.length (ps ++ [L]))) (ps ++ [L])
                         false trace d)
                 \/ at_ i w 0 [] false (trace ++ [L]) d)
      by (left; eexists; exact Hat).
    destruct (closed_deliver sched i L trace d events w H0)
      as [[ps Hat'] | Hat'];
      unfold run, flush; rewrite (at_pending_count _ _ _ _ _ _ _ Hat').
    + apply flush_n_all. exact Hat'.
    + exact Hat'.
Qed.

(** X4: once the abort signal has fired, the cancelled activation handles no
    further raw event; whatever the file system reports afterwards, its
    timers run out and it dispatches at most one more notification: none if
    no timer was pending, and otherwise exactly one, at the time the last
    pending timer is due. *)
Theorem cancelled_watcher_notifies_at_most_once_more :
  forall (options : WatcherOptions) (acts : list Action) (s : AbortSignal)
         (i : nat) (a : Activation) (sched : t -> bool)
         (events : list (Z * FsEvent)),
    abortSignal (exec (new_ options) acts) = Some s ->
    aborted s = false ->
    In i (abort_listeners s) ->
    nth_error (activations (exec (new_ options) acts)) i = Some a ->
    dispatched (run sched i events (abort (exec (new_ options) acts)))
    = dispatched (exec (new_ options) acts) ++ late (pending a)
    /\ nth_error
         (activations (run sched i events (abort (exec (new_ options) acts))))
         i
       = Some {| outstanding := 0; pending := []; fs_open := false |}.
Proof.
  intros options acts s i a sched events Hs Hna Hin Hn.
  pose proof (abort_activation _ _ _ _ Hs Hna Hin Hn) as Hat.
  assert (Hc : counted a).
  { eapply counted_nth; [|exact Hn]. apply exec_counted. constructor. }
  rewrite Hc in Hat.
  apply (closed_run sched i events) in Hat.
  destruct Hat as (Hn' & Ht & _). split; assumption.
Qed.

Lemma cancelled_watcher_notifies_at_most_once_more_witness :
  dispatched
    (run timers_first 0 [(50, modify_event); (500, modify_event)]
         (abort (exec (new_ abortable_options)
                      [CallWatch; Raw 0 modify_event 0;
                       Raw 0 modify_event 30])))
  = [230].
Proof.
  exact (proj1 (cancelled_watcher_notifies_at_most_once_more
                  abortable_options
                  [CallWatch; Raw 0 modify_event 0; Raw 0 modify_event 30]
                  {| aborted := false; abort_listeners := [0%nat] |} 0
                  {| outstanding := 2; pending := [200; 230];
                     fs_open := true |}
                  timers_first [(50, modify_event); (500, modify_event)]
                  eq_refl eq_refl (or_introl eq_refl) eq_refl)).
Defined.

Lemma abort_fired :
  forall w s, abortSignal w = Some s -> aborted s = true -> abort w = w.
Proof. intros w s Hs Ha. unfold abort. rewrite Hs, Ha. reflexivity. Qed.

(** X5: a watcher that is started again after its abort signal has fired
    gets a new activation and watches again, but the signal, having fired,
    will not fire again: aborting has no effect any more, so the restarted
    watcher cannot be cancelled. *)
Theorem restarted_watcher_cannot_be_aborted :
  forall (w : t) (s : AbortSignal),
    abortSignal w = Some s ->
    aborted s = false ->
    abort_listeners s <> [] ->
    watching (abort w) = false
    /\ watching (watch (abort w)) = true
    /\ activations (watch (abort w))
       = activations (abort w) ++ [fresh_activation]
    /\ abort (abort w) = abort w
    /\ abort (watch (abort w)) = watch (abort w).
Proof.
  intros w s Hs Hna Hne.
  assert (Hw : watching (abort w) = false).
  { unfold abort. rewrite Hs, Hna. apply abort_listeners_watching, Hne. }
  assert (Hsig : abortSignal (abort w)
                 = Some {| aborted := true;
                           abort_listeners := abort_listeners s |}).
  { unfold abort. rewrite Hs, Hna.
    rewrite abort_listeners_abortSignal. reflexivity. }
  split; [exact Hw|]. split; [apply watch_watching|].
  split; [|split].
  - unfold watch. rewrite Hw. simpl. rewrite Hsig. reflexivity.
  - apply (abort_fired _ _ Hsig). reflexivity.
  - eapply abort_fired;
      [unfold watch; rewrite Hw; simpl; rewrite Hsig|]; reflexivity.
Qed.

Lemma restarted_watcher_cannot_be_aborted_witness :
  abortSignal abortable_watcher
  = Some {| aborted := false; abort_listeners := [0%nat] |}
  /\ watching (abort (watch (abort abortable_watcher))) = true.
Proof.
  split; [reflexivity|].
  pose (H := restarted_watcher_cannot_be_aborted abortable_watcher
               {| aborted := false; abort_listeners := [0%nat] |}
               eq_refl eq_refl ltac:(discriminate)).
  exact (eq_trans (f_equal watching (proj2 (proj2 (proj2 (proj2 H)))))
                  (proj1 (proj2 H))).
Defined.

End WatcherProofs.

(** * Properties of the built-ins *)

Module JSProofs.

Lemma str_eqb_eq : forall a b : jsstring, str_eqb a b = true <-> a = b.
Proof.
  induction a as [|x a IH]; intros [|y b]; simpl; split; intros H;
    try reflexivity; try discriminate.
  - apply andb_prop in H. destruct H as [Hx Hab].
    apply N.eqb_eq in Hx. apply IH in Hab. congruence.
  - inversion H; subst. rewrite N.eqb_refl. simpl. apply IH. reflexivity.
Qed.

Lemma starts_with_spec :
  forall p s : jsstring,
    starts_with s p = true <-> exists rest, s = p ++ rest.
Proof.
  induction p as [|y p IH]; intros s; simpl.
  - split; [intros _; exists s; reflexivity | reflexivity].
  - destruct s as [|x s].
    + split; [discriminate | intros [rest H]; discriminate].
    + split.
      * intros H. apply andb_prop in H. destruct H as [Hx Hs].
        apply N.eqb_eq in Hx. apply IH in Hs. destruct Hs as [rest ->].
        exists rest. now subst.
      * intros [rest H]. inversion H; subst.
        rewrite N.eqb_refl. simpl. apply IH. now exists rest.
Qed.

Lemma endsWith_spec :
  forall s search : jsstring,
    endsWith s search = true <-> exists front, s = front ++ search.
Proof.
  intros s search. unfold endsWith. split.
  - intros H. apply andb_prop in H. destruct H as [_ H].
    apply str_eqb_eq in H.
    exists (firstn (List.length s - List.length search) s).
    rewrite <- (firstn_skipn (List.length s - List.length search) s) at 1.
    f_equal. exact H.
  - intros [front ->]. rewrite length_app.
    apply andb_true_intro. split.
    + apply Nat.leb_le. lia.
    + apply str_eqb_eq.
      replace (List.length front + List.length search - List.length search)%nat
        with (List.length front + 0)%nat by lia.
      rewrite skipn_app, skipn_all2 by lia.
      replace (List.length front + 0 - List.length front)%nat with O by lia.
      reflexivity.
Qed.

(** [lastIndexOf] finds the last place at which [search] occurs, if any. *)
Lemma lastIndexOf_at_spec :
  forall (search s : jsstring) (k : Z),
    0 <= k ->
    (lastIndexOf_at k s search = -1
     /\ forall front back, s <> front ++ search ++ back)
    \/ (exists front back,
          s = front ++ search ++ back
          /\ lastIndexOf_at k s search = k + Z.of_nat (List.length front)
          /\ forall front' back',
               s = front' ++ search ++ back' ->
               (List.length front' <= List.length front)%nat).
Proof.
  intros search. induction s as [|c rest IH]; intros k Hk.
  - simpl. destruct search as [|y search]; simpl.
    + right. exists [], []. repeat split; [simpl; lia|].
      intros front' back' H. destruct front'; [simpl; lia | discriminate].
    + left. split; [reflexivity|].
      intros front back H. destruct front; discriminate.
  - cbn [lastIndexOf_at].
    destruct (IH (k + 1) ltac:(lia)) as [[Hr Hnone] | (front & back & Hs & Hr & Hmax)].
    + rewrite Hr. cbn [Z.leb Z.compare].
      destruct (starts_with (c :: rest) search) eqn:Esw.
      * right. apply starts_with_spec in Esw. destruct Esw as [back Hb].
        exists [], back. repeat split; [exact Hb | simpl; lia |].
        intros [|c' front'] back' H; [simpl; lia|].
        exfalso. simpl in H. injection H as _ Hrest.
        eapply Hnone. exact Hrest.
      * left. split; [reflexivity|].
        intros [|c' front'] back' H.
        -- assert (starts_with (c :: rest) search = true)
             by (apply starts_with_spec; exists back'; exact H).
           congruence.
        -- simpl in H. injection H as _ Hrest. eapply Hnone. exact Hrest.
    + rewrite Hr.
      destruct (Z.leb_spec 0 (k + 1 + Z.of_nat (List.length front)))
        as [_|Hneg]; [|lia].
      right. exists (c :: front), back. repeat split.
      * simpl. now rewrite Hs.
      * simpl List.length. lia.
      * intros [|c' front'] back' H; [simpl; lia|].
        simpl in H. injection H as _ Hrest. simpl.
        apply le_n_S. eapply Hmax. exact Hrest.
Qed.

Lemma substr_front :
  forall front back : jsstring,
    substr (front ++ back) 0 (Some (Z.of_nat (List.length front))) = front.
Proof.
  intros front back. unfold substr. rewrite length_app.
  change (0 <? 0) with false. cbv iota zeta.
  rewrite (Z.min_l 0) by lia. rewrite Z.sub_0_r.
  rewrite Z.max_l by lia. rewrite Z.min_l by lia.
  rewrite Nat2Z.id. change (Z.to_nat 0) with O. rewrite skipn_O.
  rewrite firstn_app, firstn_all, Nat.sub_diag. simpl.
  apply app_nil_r.
Qed.

Lemma substr_back :
  forall front back : jsstring,
    substr (front ++ back) (Z.of_nat (List.length front)) None = back.
Proof.
  intros front back. unfold substr. rewrite length_app.
  destruct (Z.ltb_spec (Z.of_nat (List.length front)) 0); [lia|].
  cbv zeta.
  rewrite Z.min_l by lia. rewrite Nat2Z.id.
  rewrite skipn_app, skipn_all, Nat.sub_diag. simpl.
  apply firstn_all2. lia.
Qed.

Section ArrayFacts.
Context {A : Type} (eqb : A -> A -> bool).
Hypothesis eqb_eq : forall x y, eqb x y = true <-> x = y.

(** [indexOf] finds the first place at which [x] occurs. *)
Lemma indexOf_at_In :
  forall (l : list A) (x : A) (k : Z),
    In x l ->
    exists front back,
      l = front ++ x :: back /\ ~ In x front
      /\ indexOf_at eqb k l x = k + Z.of_nat (List.length front).
Proof.
  induction l as [|y l IH]; intros x k Hin; [contradiction|].
  simpl. destruct (eqb y x) eqn:E.
  - apply eqb_eq in E. subst y. exists [], l. repeat split; [auto | simpl; lia].
  - destruct Hin as [->|Hin].
    + assert (eqb x x = true) by (apply eqb_eq; reflexivity). congruence.
    + destruct (IH x (k + 1) Hin) as (front & back & Hl & Hn & Hi).
      exists (y :: front), back. repeat split.
      * simpl. now rewrite Hl.
      * intros [->|H]; [|auto].
        assert (eqb x x = true) by (apply eqb_eq; reflexivity). congruence.
      * rewrite Hi. simpl List.length. lia.
Qed.

Lemma indexOf_at_absent :
  forall (l : list A) (x : A) (k : Z),
    ~ In x l -> indexOf_at eqb k l x = -1.
Proof.
  induction l as [|y l IH]; intros x k Hn; simpl; [reflexivity|].
  destruct (eqb y x) eqn:E.
  - apply eqb_eq in E. subst. exfalso. apply Hn. now left.
  - apply IH. intros H. apply Hn. now right.
Qed.

(** Deleting one element at an index inside the array. *)
Lemma splice_one :
  forall (front back : list A) (x : A),
    splice (front ++ x :: back) (Z.of_nat (List.length front)) 1
    = front ++ back.
Proof.
  intros front back x. unfold splice. rewrite length_app. simpl List.length.
  destruct (Z.ltb_spec (Z.of_nat (List.length front)) 0); [lia|].
  rewrite Z.min_l by lia. rewrite Z.max_l by lia. rewrite Z.min_l by lia.
  rewrite Nat2Z.id.
  replace (Z.to_nat (Z.of_nat (List.length front) + 1))
    with (List.length front + 1)%nat by lia.
  rewrite firstn_app, firstn_all, Nat.sub_diag. simpl firstn.
  rewrite app_nil_r.
  rewrite skipn_app, skipn_all2 by lia.
  replace (List.length front + 1 - List.length front)%nat with 1%nat by lia.
  reflexivity.
Qed.

End ArrayFacts.

End JSProofs.

(** * Properties of the server *)

Module ServerProofs.

Import Server.
Import JSProofs.

(** ** Path resolution and file responses *)

Lemma resolve_directory :
  forall root_ dir : jsstring,
    resolve root_ (dir ++ lit "/") = root_ ++ dir ++ lit "/index.html".
Proof.
  intros root_ dir. unfold resolve.
  assert (E : endsWith (dir ++ lit "/") (lit "/") = true)
    by (apply endsWith_spec; exists dir; reflexivity).
  rewrite E, <- app_assoc. reflexivity.
Qed.

Lemma resolve_file :
  forall root_ pathname_ : jsstring,
    (forall dir, pathname_ <> dir ++ lit "/") ->
    resolve root_ pathname_ = root_ ++ pathname_.
Proof.
  intros root_ pathname_ H. unfold resolve.
  destruct (endsWith pathname_ (lit "/")) eqn:E; [|reflexivity].
  apply endsWith_spec in E. destruct E as [dir E]. elim (H dir E).
Qed.

Lemma handle_file_request :
  forall decode encode fs rq st,
    file_request st rq = true ->
    handle decode encode fs rq st
    = match fs (resolve (root st) (pathname rq)) with
      | Some content =>
          (st,
           Response_
             (if is_some (watcher st)
                 && endsWith (resolve (root st) (pathname rq)) (lit ".html")
              then encode (insert_script (reloadScript st) (decode content))
              else content) 200)
      | None => (st, Response_ [] 404)
      end.
Proof.
  intros decode encode fs rq st H. unfold file_request in H.
  apply negb_true_iff in H. unfold handle. rewrite H. reflexivity.
Qed.

(** C4: the path read for a request is the root directory followed by the
    URL path, with [index.html] appended to a URL path that ends in [/] and
    nothing appended to one that does not: [/] resolves to
    [<root>/index.html] and [/foo/] to [<root>/foo/index.html].  The answer
    to a file request depends on the file system through that path only. *)
Theorem resolve_appends_index_html_to_directories :
  forall (root_ pathname_ : jsstring),
    resolve root_ (lit "/") = root_ ++ lit "/index.html"
    /\ resolve root_ (lit "/foo/") = root_ ++ lit "/foo/index.html"
    /\ (forall dir,
          pathname_ = dir ++ lit "/" ->
          resolve root_ pathname_ = root_ ++ pathname_ ++ lit "index.html")
    /\ ((forall dir, pathname_ <> dir ++ lit "/") ->
        resolve root_ pathname_ = root_ ++ pathname_)
    /\ (forall decode encode fs fs' rq st,
          root st = root_ -> pathname rq = pathname_ ->
          file_request st rq = true ->
          fs (resolve root_ pathname_) = fs' (resolve root_ pathname_) ->
          handle decode encode fs rq st = handle decode encode fs' rq st).
Proof.
  intros root_ pathname_. repeat split.
  - intros dir ->. rewrite resolve_directory, <- app_assoc. reflexivity.
  - apply resolve_file.
  - intros decode encode fs fs' rq st Hr Hp Hf Hfs.
    rewrite !handle_file_request by exact Hf.
    rewrite Hr, Hp, Hfs. reflexivity.
Qed.

Lemma resolve_appends_index_html_to_directories_witness :
  resolve (lit "www") (lit "/docs/") = lit "www/docs/index.html"
  /\ resolve (lit "www") (lit "/style.css") = lit "www/style.css".
Proof.
  split.
  - exact (proj1 (proj2 (proj2
             (resolve_appends_index_html_to_directories
                (lit "www") (lit "/docs/"))))
             (lit "/docs") eq_refl).
  - refine (proj1 (proj2 (proj2 (proj2
              (resolve_appends_index_html_to_directories
                 (lit "www") (lit "/style.css")))))
              _).
    intros dir H.
    assert (E : endsWith (lit "/style.css") (lit "/") = true)
      by (apply endsWith_spec; exists dir; exact H).
    discriminate E.
Defined.

Lemma insert_script_spec :
  forall script text : jsstring,
    (exists front back,
        text = front ++ lit "</body>" ++ back
        /\ (forall front' back',
              text = front' ++ lit "</body>" ++ back' ->
              (List.length front' <= List.length front)%nat)
        /\ insert_script script text
           = front ++ script ++ lit "</body>" ++ back)
    \/ ((forall front back, text <> front ++ lit "</body>" ++ back)
        /\ insert_script script text = text ++ script).
Proof.
  intros script text. unfold insert_script, lastIndexOf.
  destruct (lastIndexOf_at_spec (lit "</body>") text 0 ltac:(lia))
    as [[Hr Hnone] | (front & back & Hs & Hr & Hmax)].
  - right. rewrite Hr. split; [exact Hnone | reflexivity].
  - left. exists front, back. rewrite Hr, Z.add_0_l.
    split; [exact Hs|]. split; [exact Hmax|].
    destruct (Z.geb_spec (Z.of_nat (List.length front)) 0) as [_|Hneg]; [|lia].
    rewrite Hs, substr_front, substr_back. reflexivity.
Qed.

(** C3: a file that is read successfully is answered with status 200.  When
    watching is enabled and the resolved path ends in [.html], the body is
    the encoding of the file's text with the reload script inserted at one
    place: immediately before the last occurrence of [</body>] if there is
    one, and at the end otherwise.  When the resolved path does not end in
    [.html], the body is the file's bytes, unchanged. *)
Theorem html_is_served_with_reload_script :
  forall (decode : list byte -> jsstring) (encode : jsstring -> list byte)
         (fs : FileSystem) (rq : Request) (st : t) (content : list byte),
    file_request st rq = true ->
    fs (resolve (root st) (pathname rq)) = Some content ->
    exists body,
      handle decode encode fs rq st = (st, Response_ body 200)
      /\ (is_some (watcher st) = true ->
          endsWith (resolve (root st) (pathname rq)) (lit ".html") = true ->
          (exists front back,
              decode content = front ++ lit "</body>" ++ back
              /\ (forall front' back',
                    decode content = front' ++ lit "</body>" ++ back' ->
                    (List.length front' <= List.length front)%nat)
              /\ body = encode (front ++ reloadScript st
                                  ++ lit "</body>" ++ back))
          \/ ((forall front back,
                  decode content <> front ++ lit "</body>" ++ back)
              /\ body = encode (decode content ++ reloadScript st)))
      /\ (endsWith (resolve (root st) (pathname rq)) (lit ".html") = false ->
          body = content).
Proof.
  intros decode encode fs rq st content Hf Hfs.
  rewrite (handle_file_request _ _ _ _ _ Hf), Hfs.
  eexists. split; [reflexivity|]. split.
  - intros Hw Hh. rewrite Hw, Hh. cbn [andb].
    destruct (insert_script_spec (reloadScript st) (decode content))
      as [(front & back & Hs & Hmax & Hi) | [Hnone Hi]]; rewrite Hi.
    + left. exists front, back. repeat split; assumption.
    + right. split; [exact Hnone | reflexivity].
  - intros Hh. rewrite Hh, andb_false_r. reflexivity.
Qed.

Lemma html_is_served_with_reload_script_witness :
  file_request main_server (get "/") = true
  /\ www (resolve (root main_server) (pathname (get "/"))) = Some index_html
  /\ exists body,
       handle latin1_decode latin1_encode www (get "/") main_server
       = (main_server, Response_ body 200).
Proof.
  split; [reflexivity|]. split; [reflexivity|].
  destruct (html_is_served_with_reload_script latin1_decode latin1_encode
              www (get "/") main_server index_html eq_refl eq_refl)
    as (body & Hb & _).
  exists body. exact Hb.
Defined.

(** The scenario of the specification: [GET /] on a root whose [index.html]
    is [<html><body>hi</body></html>]. *)
Example get_index_html :
  handle latin1_decode latin1_encode www (get "/") main_server
  = (main_server,
     Response_
       (latin1_encode
          (lit "<html><body>hi" ++ reloadScript main_server
             ++ lit "</body></html>")) 200).
Proof. vm_compute. reflexivity. Qed.

Example get_style_css :
  handle latin1_decode latin1_encode www (get "/style.css") main_server
  = (main_server, Response_ style_css 200).
Proof. vm_compute. reflexivity. Qed.

(** C5: a file request whose read fails is answered with status 404 and an
    empty body, and leaves the server as it was: its broadcast set, its
    watcher and everything else are unchanged, so whatever the server does
    afterwards is what it would have done had the request never arrived. *)
Theorem failed_read_is_answered_404 :
  forall (decode : list byte -> jsstring) (encode : jsstring -> list byte)
         (fs : FileSystem) (rq : Request) (st : t),
    file_request st rq = true ->
    fs (resolve (root st) (pathname rq)) = None ->
    handle decode encode fs rq st = (st, Response_ [] 404)
    /\ step decode encode st (Incoming fs rq) = Some st
    /\ (forall fs' rq',
          handle decode encode fs' rq' (fst (handle decode encode fs rq st))
          = handle decode encode fs' rq' st)
    /\ (forall acts,
          exec decode encode st (Incoming fs rq :: acts)
          = exec decode encode st acts).
Proof.
  intros decode encode fs rq st Hf Hfs.
  assert (H : handle decode encode fs rq st = (st, Response_ [] 404)).
  { rewrite (handle_file_request _ _ _ _ _ Hf), Hfs. reflexivity. }
  repeat split.
  - exact H.
  - cbn [step]. rewrite H. reflexivity.
  - intros fs' rq'. rewrite H. reflexivity.
  - intros acts. cbn [exec step]. rewrite H. reflexivity.
Qed.

Lemma failed_read_is_answered_404_witness :
  file_request main_server (get "/missing.html") = true
  /\ www (resolve (root main_server) (pathname (get "/missing.html"))) = None
  /\ handle latin1_decode latin1_encode www (get "/missing.html") main_server
     = (main_server, Response_ [] 404).
Proof.
  split; [reflexivity|]. split; [reflexivity|].
  exact (proj1 (failed_read_is_answered_404 latin1_decode latin1_encode
                  www (get "/missing.html") main_server eq_refl eq_refl)).
Defined.

(** ** Broadcast *)

Lemma add_sent_nil : forall st, add_sent [] st = st.
Proof. intros []. unfold add_sent. simpl. now rewrite app_nil_r. Qed.

Lemma add_sent_add_sent :
  forall l1 l2 st, add_sent l2 (add_sent l1 st) = add_sent (l1 ++ l2) st.
Proof. intros l1 l2 st. unfold add_sent. simpl. now rewrite app_assoc. Qed.

Lemma try_send_add_sent :
  forall ok st c,
    try_send ok st c
    = add_sent [(c, lit "updated", if ok c then Normal else Throw)] st.
Proof. intros ok st c. unfold try_send, send. destruct (ok c); reflexivity. Qed.

Lemma fold_try_send :
  forall ok l st,
    fold_left (try_send ok) l st
    = add_sent
        (map (fun c => (c, lit "updated", if ok c then Normal else Throw)) l)
        st.
Proof.
  intros ok. induction l as [|c l IH]; intros st; simpl.
  - symmetry. apply add_sent_nil.
  - rewrite IH, try_send_add_sent, add_sent_add_sent. reflexivity.
Qed.

Lemma on_updated_add_sent :
  forall ok st,
    on_updated ok st
    = add_sent
        (map (fun c => (c, lit "updated", if ok c then Normal else Throw))
             (reloadClients st))
        st.
Proof. intros ok st. apply fold_try_send. Qed.

Lemma broadcast_targets_clients :
  forall ok st, broadcast_targets ok st = reloadClients st.
Proof.
  intros ok st. unfold broadcast_targets. rewrite on_updated_add_sent.
  simpl sent. rewrite skipn_app, skipn_all, Nat.sub_diag. simpl.
  rewrite map_map. simpl. apply map_id.
Qed.

Lemma run_listeners_add_sent :
  forall ok calls st,
    exists extra, fold_left (run_listener ok) calls st = add_sent extra st.
Proof.
  intros ok. induction calls as [|[] calls IH]; intros st; simpl.
  - exists []. symmetry. apply add_sent_nil.
  - destruct (IH (on_updated ok st)) as [extra H].
    rewrite H, on_updated_add_sent, add_sent_add_sent. eexists. reflexivity.
Qed.

(** ** What every step of a serving server preserves *)

Lemma handle_watcher :
  forall decode encode fs rq st,
    watcher (fst (handle decode encode fs rq st)) = watcher st.
Proof.
  intros decode encode fs rq st. unfold handle.
  destruct (is_some (watcher st) && str_eqb (pathname rq) (reloadEventPath st)).
  - destruct (websocket_upgrade rq); reflexivity.
  - destruct (fs (resolve (root st) (pathname rq))); reflexivity.
Qed.

Lemma watcher_timeout_watcher :
  forall i ok st w,
    watcher st = Some w ->
    watcher (watcher_timeout i ok st) = Some (fst (Watcher.timeout i w)).
Proof.
  intros i ok st w Hw. unfold watcher_timeout. rewrite Hw.
  destruct (Watcher.timeout i w) as [w' calls].
  destruct (run_listeners_add_sent ok calls (set_watcher (Some w') st))
    as [extra H].
  rewrite H. reflexivity.
Qed.

Lemma step_listening :
  forall decode encode st a st',
    listening st -> step decode encode st a = Some st' -> listening st'.
Proof.
  intros decode encode st a st' Hl Hs w' Hw'.
  destruct a as [fs rq | s | i e now | i ok]; cbn [step] in Hs.
  - injection Hs as <-. rewrite handle_watcher in Hw'. apply Hl, Hw'.
  - destruct ((s <? created st)%nat && negb (existsb (Nat.eqb s) (closed st)));
      [|discriminate].
    injection Hs as <-. apply Hl, Hw'.
  - injection Hs as <-. unfold watcher_raw in Hw'.
    destruct (watcher st) as [w|] eqn:Ew; [|congruence].
    simpl in Hw'. injection Hw' as <-.
    rewrite WatcherProofs.raw_listeners. apply Hl, Ew.
  - injection Hs as <-.
    destruct (watcher st) as [w|] eqn:Ew.
    + rewrite (watcher_timeout_watcher _ _ _ _ Ew) in Hw'.
      injection Hw' as <-.
      rewrite WatcherProofs.timeout_listeners. apply Hl, Ew.
    + unfold watcher_timeout in Hw'. rewrite Ew in Hw'. congruence.
Qed.

Lemma serve_listening : forall options, listening (serve (new_ options)).
Proof.
  intros options w. unfold serve, new_. simpl.
  destruct (opt_watch options) as [[|]|]; simpl; try discriminate.
  intros H. injection H as <-.
  rewrite WatcherProofs.watch_listeners. reflexivity.
Qed.

Lemma exec_listening :
  forall decode encode acts st st',
    listening st -> exec decode encode st acts = Some st' -> listening st'.
Proof.
  intros decode encode. induction acts as [|a acts IH]; intros st st' Hl He.
  - simpl in He. injection He as <-. exact Hl.
  - cbn [exec] in He.
    destruct (step decode encode st a) as [st1|] eqn:Es; [|discriminate].
    eapply IH; [|exact He]. eapply step_listening; eassumption.
Qed.

(** C7: in every state of a serving server, the "updated" listener calls
    [send] with the text [updated] once for each socket of the broadcast
    set, in order; a call that throws does not stop the loop, and the
    listener changes nothing but the trace of calls, so a socket whose send
    failed stays in the set.  The listener is what runs whenever a timer of
    the watcher dispatches, and it does not run otherwise. *)
Theorem updated_is_sent_to_every_client :
  forall (decode : list byte -> jsstring) (encode : jsstring -> list byte)
         (options : ServerOptions) (acts : list Action) (st : t)
         (ok : Socket -> bool),
    exec decode encode (serve (new_ options)) acts = Some st ->
    on_updated ok st
    = add_sent
        (map (fun c => (c, lit "updated", if ok c then Normal else Throw))
             (reloadClients st))
        st
    /\ broadcast_targets ok st = reloadClients st
    /\ reloadClients (on_updated ok st) = reloadClients st
    /\ (forall i w,
          watcher st = Some w ->
          Watcher.dispatched (fst (Watcher.timeout i w))
            <> Watcher.dispatched w ->
          watcher_timeout i ok st
          = on_updated ok (set_watcher (Some (fst (Watcher.timeout i w))) st))
    /\ (forall i w,
          watcher st = Some w ->
          Watcher.dispatched (fst (Watcher.timeout i w))
            = Watcher.dispatched w ->
          watcher_timeout i ok st
          = set_watcher (Some (fst (Watcher.timeout i w))) st).
Proof.
  intros decode encode options acts st ok He.
  assert (Hl : listening st)
    by (eapply exec_listening; [apply serve_listening | exact He]).
  split; [apply on_updated_add_sent|].
  split; [apply broadcast_targets_clients|].
  split; [rewrite on_updated_add_sent; reflexivity|].
  split; intros i w Hw Hd; unfold watcher_timeout; rewrite Hw;
    destruct (WatcherProofs.timeout_calls i w)
      as [[Hc Hsame] | [Hc [now Hnew]]];
    destruct (Watcher.timeout i w) as [w' calls]; simpl in *; subst calls.
  - congruence.
  - rewrite (Hl w Hw). reflexivity.
  - reflexivity.
  - exfalso. rewrite Hd in Hnew.
    apply (f_equal (@List.length Z)) in Hnew.
    rewrite length_app in Hnew. simpl in Hnew. lia.
Qed.

Lemma updated_is_sent_to_every_client_witness :
  exec latin1_decode latin1_encode (serve (new_ main_options)) three_upgrades
  = Some three_clients
  /\ sent (on_updated socket_1_gone three_clients)
     = [(0%nat, lit "updated", Normal); (1%nat, lit "updated", Throw);
        (2%nat, lit "updated", Normal)]
  /\ reloadClients (on_updated socket_1_gone three_clients)
     = [0%nat; 1%nat; 2%nat].
Proof.
  pose (H := updated_is_sent_to_every_client latin1_decode latin1_encode
               main_options three_upgrades three_clients socket_1_gone
               eq_refl).
  split; [reflexivity|]. split.
  - exact (f_equal sent (proj1 H)).
  - exact (proj1 (proj2 (proj2 H))).
Defined.

(** ** The broadcast set *)

Lemma on_close_present :
  forall st s,
    In s (reloadClients st) ->
    exists front back,
      reloadClients st = front ++ s :: back
      /\ ~ In s front
      /\ reloadClients (on_close s st) = front ++ back.
Proof.
  intros st s Hin.
  destruct (indexOf_at_In Nat.eqb Nat.eqb_eq (reloadClients st) s 0 Hin)
    as (front & back & Hl & Hnf & Hi).
  exists front, back. split; [exact Hl|]. split; [exact Hnf|].
  unfold on_close, indexOf. simpl. rewrite Hi, Z.add_0_l.
  rewrite Hl at 1. apply splice_one.
Qed.

Lemma serve_clients_ok : forall options, clients_ok (serve (new_ options)).
Proof.
  intros options.
  assert (H : reloadClients (serve (new_ options)) = []
              /\ created (serve (new_ options)) = O
              /\ closed (serve (new_ options)) = []).
  { unfold serve, new_. simpl.
    destruct (opt_watch options) as [[|]|]; simpl; repeat split. }
  destruct H as (Hc & Hn & Hd). unfold clients_ok, open_socket.
  rewrite Hc, Hn, Hd. split; [constructor|]. split.
  - intros s. split; [intros [] | intros [H _]; lia].
  - intros s [].
Qed.

Lemma handle_clients_ok :
  forall decode encode fs rq st,
    clients_ok st -> clients_ok (fst (handle decode encode fs rq st)).
Proof.
  intros decode encode fs rq st Hok. pose proof Hok as (Hnd & Hin & Hcl).
  unfold handle.
  destruct (is_some (watcher st) && str_eqb (pathname rq) (reloadEventPath st)).
  - destruct (websocket_upgrade rq); simpl; [|exact Hok]. clear Hok.
    unfold clients_ok, open_socket, push in *. simpl. split; [|split].
    + apply NoDup_app; [exact Hnd | repeat constructor; intros [] |].
      intros x Hx [<-|[]]. apply Hin in Hx. lia.
    + intros s. rewrite in_app_iff. simpl. split.
      * intros [H | [<- | []]].
        -- apply Hin in H. destruct H. split; [lia | assumption].
        -- split; [lia|]. intros H. apply Hcl in H. lia.
      * intros [Hlt Hn].
        destruct (Nat.eq_dec s (created st)) as [->|Hne]; [right; now left|].
        left. apply Hin. split; [lia | exact Hn].
    + intros s H. apply Hcl in H. lia.
  - destruct (fs (resolve (root st) (pathname rq))); simpl; exact Hok.
Qed.

Lemma close_clients_ok :
  forall st s,
    clients_ok st -> open_socket st s ->
    clients_ok (on_close s (mark_closed s st)).
Proof.
  intros st s (Hnd & Hin & Hcl) Hopen.
  assert (Hs : In s (reloadClients (mark_closed s st)))
    by (apply Hin, Hopen).
  destruct (on_close_present _ s Hs) as (front & back & Hl & Hnf & Hr).
  simpl in Hl. rewrite Hl in Hnd.
  pose proof (NoDup_remove_1 _ _ _ Hnd) as Hnd'.
  pose proof (NoDup_remove_2 _ _ _ Hnd) as Hns.
  unfold clients_ok, open_socket. rewrite Hr. simpl.
  split; [exact Hnd'|]. split.
  - intros c. split.
    + intros Hc.
      assert (Hc' : In c (reloadClients st)).
      { rewrite Hl. apply in_app_iff. apply in_app_iff in Hc.
        destruct Hc; [now left | right; now right]. }
      apply Hin in Hc'. destruct Hc' as [Hlt Hn]. split; [exact Hlt|].
      intros [<-|H]; [apply Hns, Hc | apply Hn, H].
    + intros [Hlt Hn].
      assert (Hc' : In c (reloadClients st))
        by (apply Hin; split; [exact Hlt | intros H; apply Hn; now right]).
      rewrite Hl in Hc'. apply in_app_iff in Hc'. apply in_app_iff.
      destruct Hc' as [H | [<- | H]];
        [now left | exfalso; apply Hn; now left | now right].
  - intros c [<-|H]; [apply Hopen | apply Hcl, H].
Qed.

Lemma watcher_timeout_clients :
  forall i ok st,
    reloadClients (watcher_timeout i ok st) = reloadClients st
    /\ created (watcher_timeout i ok st) = created st
    /\ closed (watcher_timeout i ok st) = closed st.
Proof.
  intros i ok st. unfold watcher_timeout.
  destruct (watcher st) as [w|]; [|repeat split].
  destruct (Watcher.timeout i w) as [w' calls].
  destruct (run_listeners_add_sent ok calls (set_watcher (Some w') st))
    as [extra H].
  rewrite H. repeat split.
Qed.

Lemma watcher_raw_clients :
  forall i e now st,
    reloadClients (watcher_raw i e now st) = reloadClients st
    /\ created (watcher_raw i e now st) = created st
    /\ closed (watcher_raw i e now st) = closed st.
Proof.
  intros i e now st. unfold watcher_raw.
  destruct (watcher st); repeat split.
Qed.

Lemma close_enabled :
  forall st s,
    (s <? created st)%nat && negb (existsb (Nat.eqb s) (closed st)) = true
    <-> open_socket st s.
Proof.
  intros st s. unfold open_socket.
  rewrite andb_true_iff, Nat.ltb_lt, negb_true_iff.
  split; intros [Hlt Hn]; (split; [exact Hlt|]).
  - intros H. assert (existsb (Nat.eqb s) (closed st) = true); [|congruence].
    apply existsb_exists. exists s. split; [exact H | apply Nat.eqb_refl].
  - destruct (existsb (Nat.eqb s) (closed st)) eqn:E; [|reflexivity].
    apply existsb_exists in E. destruct E as (x & Hx & Heq).
    apply Nat.eqb_eq in Heq. subst x. contradiction.
Qed.

Lemma step_clients_ok :
  forall decode encode st a st',
    clients_ok st -> step decode encode st a = Some st' -> clients_ok st'.
Proof.
  intros decode encode st a st' Hok Hs.
  destruct a as [fs rq | s | i e now | i ok]; cbn [step] in Hs.
  - injection Hs as <-. apply handle_clients_ok, Hok.
  - destruct ((s <? created st)%nat && negb (existsb (Nat.eqb s) (closed st)))
      eqn:E; [|discriminate].
    injection Hs as <-. apply close_clients_ok; [exact Hok|].
    apply close_enabled, E.
  - injection Hs as <-.
    destruct (watcher_raw_clients i e now st) as (H1 & H2 & H3).
    unfold clients_ok, open_socket in *. rewrite H1, H2, H3. exact Hok.
  - injection Hs as <-.
    destruct (watcher_timeout_clients i ok st) as (H1 & H2 & H3).
    unfold clients_ok, open_socket in *. rewrite H1, H2, H3. exact Hok.
Qed.

Lemma exec_clients_ok :
  forall decode encode acts st st',
    clients_ok st -> exec decode encode st acts = Some st' -> clients_ok st'.
Proof.
  intros decode encode. induction acts as [|a acts IH]; intros st st' Hok He.
  - simpl in He. injection He as <-. exact Hok.
  - cbn [exec] in He.
    destruct (step decode encode st a) as [st1|] eqn:Es; [|discriminate].
    eapply IH; [|exact He]. eapply step_clients_ok; eassumption.
Qed.

Lemma handle_closed :
  forall decode encode fs rq st,
    closed (fst (handle decode encode fs rq st)) = closed st.
Proof.
  intros decode encode fs rq st. unfold handle.
  destruct (is_some (watcher st) && str_eqb (pathname rq) (reloadEventPath st)).
  - destruct (websocket_upgrade rq); reflexivity.
  - destruct (fs (resolve (root st) (pathname rq))); reflexivity.
Qed.

(** A socket that has been closed stays closed. *)
Lemma exec_closed :
  forall decode encode acts st st' s,
    In s (closed st) -> exec decode encode st acts = Some st' ->
    In s (closed st').
Proof.
  intros decode encode. induction acts as [|a acts IH]; intros st st' s Hin He.
  - simpl in He. injection He as <-. exact Hin.
  - cbn [exec] in He.
    destruct (step decode encode st a) as [st1|] eqn:Es; [|discriminate].
    eapply IH; [|exact He].
    destruct a as [fs rq | s0 | i e now | i ok]; cbn [step] in Es.
    + injection Es as <-. rewrite handle_closed. exact Hin.
    + destruct ((s0 <? created st)%nat
                && negb (existsb (Nat.eqb s0) (closed st))); [|discriminate].
      injection Es as <-. simpl. right. exact Hin.
    + injection Es as <-.
      destruct (watcher_raw_clients i e now st) as (_ & _ & H3).
      rewrite H3. exact Hin.
    + injection Es as <-.
      destruct (watcher_timeout_clients i ok st) as (_ & _ & H3).
      rewrite H3. exact Hin.
Qed.

(** C6: in every state of a serving server the broadcast set holds each
    socket at most once.  When the "close" event of a socket is delivered,
    its handler removes that socket and nothing else: the other sockets stay
    in the set, in their order.  The socket is then absent from the set in
    every later state, so no later broadcast sends to it. *)
Theorem close_removes_exactly_that_client :
  forall (decode : list byte -> jsstring) (encode : jsstring -> list byte)
         (options : ServerOptions) (acts : list Action) (st st' : t)
         (s : Socket),
    exec decode encode (serve (new_ options)) acts = Some st ->
    step decode encode st (Close s) = Some st' ->
    NoDup (reloadClients st)
    /\ (exists front back,
          reloadClients st = front ++ s :: back
          /\ reloadClients st' = front ++ back)
    /\ ~ In s (reloadClients st')
    /\ (forall c, c <> s ->
                  (In c (reloadClients st') <-> In c (reloadClients st)))
    /\ NoDup (reloadClients st')
    /\ (forall acts' st'' ok,
          exec decode encode st' acts' = Some st'' ->
          ~ In s (reloadClients st'')
          /\ ~ In s (broadcast_targets ok st'')).
Proof.
  intros decode encode options acts st st' s He Hs.
  assert (Hok : clients_ok st)
    by (eapply exec_clients_ok; [apply serve_clients_ok | exact He]).
  assert (Hok' : clients_ok st')
    by (eapply step_clients_ok; eassumption).
  cbn [step] in Hs.
  destruct ((s <? created st)%nat && negb (existsb (Nat.eqb s) (closed st)))
    eqn:E; [|discriminate].
  injection Hs as <-. apply close_enabled in E.
  destruct Hok as (Hnd & Hin & Hcl).
  assert (Hmem : In s (reloadClients (mark_closed s st))) by (apply Hin, E).
  destruct (on_close_present _ s Hmem) as (front & back & Hl & _ & Hr).
  simpl in Hl.
  assert (Hns : ~ In s (front ++ back))
    by (apply NoDup_remove_2; rewrite <- Hl; exact Hnd).
  split; [exact Hnd|].
  split; [exists front, back; split; assumption|].
  split; [rewrite Hr; exact Hns|].
  split; [|split; [apply Hok'|]].
  - intros c Hc. rewrite Hr, Hl, !in_app_iff. simpl.
    split; [intros [H|H]; auto | intros [H|[H|H]]; auto; congruence].
  - intros acts' st'' ok He'.
    assert (Hok'' : clients_ok st'')
      by (eapply exec_clients_ok; [exact Hok' | exact He']).
    assert (Hc : In s (closed st'')).
    { eapply exec_closed; [|exact He']. simpl. now left. }
    assert (Hn : ~ In s (reloadClients st'')).
    { intros H. apply Hok'' in H. destruct H as [_ H]. exact (H Hc). }
    split; [exact Hn|]. rewrite broadcast_targets_clients. exact Hn.
Qed.

Lemma close_removes_exactly_that_client_witness :
  exec latin1_decode latin1_encode (serve (new_ main_options)) three_upgrades
  = Some three_clients
  /\ step latin1_decode latin1_encode three_clients (Close 1%nat)
     = Some (on_close 1%nat (mark_closed 1%nat three_clients))
  /\ reloadClients three_clients = [0%nat; 1%nat; 2%nat]
  /\ reloadClients (on_close 1%nat (mark_closed 1%nat three_clients))
     = [0%nat; 2%nat]
  /\ ~ In 1%nat
          (reloadClients (on_close 1%nat (mark_closed 1%nat three_clients))).
Proof.
  split; [reflexivity|]. split; [reflexivity|].
  split; [reflexivity|]. split; [reflexivity|].
  exact (proj1 (proj2 (proj2
           (close_removes_exactly_that_client latin1_decode latin1_encode
              main_options three_upgrades three_clients
              (on_close 1%nat (mark_closed 1%nat three_clients)) 1%nat
              eq_refl eq_refl)))).
Defined.

(** Outside the reachable states [splice] would misbehave: were the handler
    to run for a socket that is not in the set, [indexOf] would give -1 and
    [splice(-1, 1)] would delete the last socket of the set. *)
Lemma on_close_absent :
  forall st s,
    ~ In s (reloadClients st) ->
    reloadClients (on_close s st) = removelast (reloadClients st).
Proof.
  intros st s Hn. unfold on_close, indexOf. simpl.
  rewrite (indexOf_at_absent Nat.eqb Nat.eqb_eq) by exact Hn.
  unfold splice. cbn [Z.ltb Z.compare].
  destruct (reloadClients st) as [|c l] eqn:E; [reflexivity|].
  rewrite <- E.
  assert (Hlen : (1 <= List.length (reloadClients st))%nat)
    by (rewrite E; simpl; lia).
  clear E Hn.
  rewrite Z.max_l by lia. rewrite Z.max_l by lia.
  rewrite Z.min_l by lia.
  replace (Z.to_nat (Z.of_nat (List.length (reloadClients st)) + -1 + 1))
    with (List.length (reloadClients st)) by lia.
  rewrite skipn_all, app_nil_r.
  replace (Z.to_nat (Z.of_nat (List.length (reloadClients st)) + -1))
    with (Nat.pred (List.length (reloadClients st))) by lia.
  symmetry. apply removelast_firstn_len.
Qed.

(** * Further properties of the server *)

(** ** The broadcast set is the set of open sockets *)

Lemma filter_absent :
  forall (l : list Socket) (s : Socket),
    ~ In s l -> filter (fun c => negb (Nat.eqb c s)) l = l.
Proof.
  induction l as [|c l IH]; intros s Hn; simpl; [reflexivity|].
  destruct (Nat.eqb_spec c s) as [->|Hne]; simpl.
  - exfalso. apply Hn. now left.
  - rewrite IH; [reflexivity|]. intros H. apply Hn. now right.
Qed.

Lemma filter_both :
  forall (A : Type) (f g : A -> bool) (l : list A),
    filter (fun x => f x && g x) l = filter f (filter g l).
Proof.
  intros A f g. induction l as [|x l IH]; simpl; [reflexivity|].
  destruct (g x); simpl; [|rewrite andb_false_r; exact IH].
  rewrite andb_true_r. destruct (f x); [rewrite IH|]; auto.
Qed.

Lemma existsb_closed :
  forall st s, existsb (Nat.eqb s) (closed st) = true <-> In s (closed st).
Proof.
  intros st s. rewrite existsb_exists. split.
  - intros (x & Hx & E). apply Nat.eqb_eq in E. now subst.
  - intros H. exists s. split; [exact H | apply Nat.eqb_refl].
Qed.

Lemma handle_open_sockets :
  forall decode encode fs rq st,
    clients_ok st ->
    reloadClients st = open_sockets st ->
    reloadClients (fst (handle decode encode fs rq st))
    = open_sockets (fst (handle decode encode fs rq st)).
Proof.
  intros decode encode fs rq st (_ & _ & Hcl) Heq. unfold handle.
  destruct (is_some (watcher st) && str_eqb (pathname rq) (reloadEventPath st)).
  - destruct (websocket_upgrade rq); simpl; [|exact Heq].
    unfold open_sockets, push. simpl created. simpl closed.
    rewrite seq_S, filter_app. simpl.
    destruct (existsb (Nat.eqb (created st)) (closed st)) eqn:E.
    + apply existsb_closed, Hcl in E. lia.
    + simpl. rewrite Heq. reflexivity.
  - destruct (fs (resolve (root st) (pathname rq))); exact Heq.
Qed.

Lemma close_open_sockets :
  forall st s,
    clients_ok st -> open_socket st s ->
    reloadClients st = open_sockets st ->
    reloadClients (on_close s (mark_closed s st))
    = open_sockets (on_close s (mark_closed s st)).
Proof.
  intros st s (Hnd & Hin & _) Hopen Heq.
  assert (Hmem : In s (reloadClients (mark_closed s st)))
    by (apply Hin, Hopen).
  destruct (on_close_present _ s Hmem) as (front & back & Hl & Hnf & Hr).
  simpl in Hl. rewrite Hr.
  assert (Hnb : ~ In s back).
  { rewrite Hl in Hnd. apply NoDup_remove_2 in Hnd.
    intros H. apply Hnd. apply in_app_iff. now right. }
  unfold open_sockets. simpl created. simpl closed.
  transitivity (filter (fun c => negb (Nat.eqb c s)) (open_sockets st)).
  - rewrite <- Heq, Hl, filter_app. simpl. rewrite Nat.eqb_refl. simpl.
    rewrite !filter_absent by assumption. reflexivity.
  - unfold open_sockets. rewrite <- filter_both.
    apply filter_ext. intros c. simpl. rewrite negb_orb. reflexivity.
Qed.

Lemma step_open_sockets :
  forall decode encode st a st',
    clients_ok st -> reloadClients st = open_sockets st ->
    step decode encode st a = Some st' ->
    reloadClients st' = open_sockets st'.
Proof.
  intros decode encode st a st' Hok Heq Hs.
  destruct a as [fs rq | s | i e now | i ok]; cbn [step] in Hs.
  - injection Hs as <-. apply handle_open_sockets; assumption.
  - destruct ((s <? created st)%nat && negb (existsb (Nat.eqb s) (closed st)))
      eqn:E; [|discriminate].
    injection Hs as <-. apply close_open_sockets; try assumption.
    apply close_enabled, E.
  - injection Hs as <-.
    destruct (watcher_raw_clients i e now st) as (H1 & H2 & H3).
    unfold open_sockets. rewrite H1, H2, H3. exact Heq.
  - injection Hs as <-.
    destruct (watcher_timeout_clients i ok st) as (H1 & H2 & H3).
    unfold open_sockets. rewrite H1, H2, H3. exact Heq.
Qed.

Lemma exec_open_sockets :
  forall decode encode acts st st',
    clients_ok st -> reloadClients st = open_sockets st ->
    exec decode encode st acts = Some st' ->
    reloadClients st' = open_sockets st'.
Proof.
  intros decode encode. induction acts as [|a acts IH];
    intros st st' Hok Heq He.
  - simpl in He. injection He as <-. exact Heq.
  - cbn [exec] in He.
    destruct (step decode encode st a) as [st1|] eqn:Es; [|discriminate].
    eapply IH; [| |exact He].
    + eapply step_clients_ok; eassumption.
    + eapply step_open_sockets; eassumption.
Qed.

(** X6: in every state of a serving server, the broadcast set is exactly the
    list of the sockets that were upgraded and whose "close" event has not
    been delivered yet, in the order in which they connected; so every
    connected client receives the next broadcast and no gone one does. *)
Theorem broadcast_set_is_the_open_sockets :
  forall (decode : list byte -> jsstring) (encode : jsstring -> list byte)
         (options : ServerOptions) (acts : list Action) (st : t),
    exec decode encode (serve (new_ options)) acts = Some st ->
    reloadClients st = open_sockets st
    /\ forall ok, broadcast_targets ok st = open_sockets st.
Proof.
  intros decode encode options acts st He.
  assert (H : reloadClients st = open_sockets st).
  { eapply exec_open_sockets; [apply serve_clients_ok | | exact He].
    unfold serve, new_, open_sockets. simpl.
    destruct (opt_watch options) as [[|]|]; reflexivity. }
  split; [exact H|].
  intros ok. rewrite broadcast_targets_clients. exact H.
Qed.

Lemma broadcast_set_is_the_open_sockets_witness :
  exec latin1_decode latin1_encode (serve (new_ main_options)) reconnecting
  = Some reconnected
  /\ reloadClients reconnected = open_sockets reconnected
  /\ open_sockets reconnected = [0%nat; 2%nat; 3%nat].
Proof.
  assert (He : exec latin1_decode latin1_encode (serve (new_ main_options))
                    reconnecting
               = Some reconnected) by (vm_compute; reflexivity).
  split; [exact He|]. split; [|vm_compute; reflexivity].
  exact (proj1 (broadcast_set_is_the_open_sockets latin1_decode latin1_encode
                  main_options reconnecting reconnected He)).
Defined.

(** ** What the server sends *)

Lemma run_listeners_calls :
  forall ok calls st,
    exists extra,
      fold_left (run_listener ok) calls st = add_sent extra st
      /\ Forall (fun call => snd (fst call) = lit "updated"
                             /\ In (fst (fst call)) (reloadClients st)) extra.
Proof.
  intros ok. induction calls as [|[] calls IH]; intros st; simpl.
  - exists []. split; [symmetry; apply add_sent_nil | constructor].
  - destruct (IH (on_updated ok st)) as (extra & H & Hall).
    rewrite H, on_updated_add_sent, add_sent_add_sent.
    eexists. split; [reflexivity|].
    apply Forall_app. split.
    + apply Forall_forall. intros call Hc. apply in_map_iff in Hc.
      destruct Hc as (c & <- & Hc). split; [reflexivity | exact Hc].
    + rewrite on_updated_add_sent in Hall. exact Hall.
Qed.

Lemma handle_sent_created :
  forall decode encode fs rq st,
    sent (fst (handle decode encode fs rq st)) = sent st
    /\ (created st <= created (fst (handle decode encode fs rq st)))%nat.
Proof.
  intros decode encode fs rq st. unfold handle.
  destruct (is_some (watcher st) && str_eqb (pathname rq) (reloadEventPath st)).
  - destruct (websocket_upgrade rq); simpl; split; auto.
  - destruct (fs (resolve (root st) (pathname rq))); simpl; split; auto.
Qed.

Lemma step_sent :
  forall decode encode st a st',
    clients_ok st ->
    Forall (fun call => snd (fst call) = lit "updated"
                        /\ (fst (fst call) < created st)%nat) (sent st) ->
    step decode encode st a = Some st' ->
    Forall (fun call => snd (fst call) = lit "updated"
                        /\ (fst (fst call) < created st')%nat) (sent st').
Proof.
  intros decode encode st a st' Hok Hall Hs.
  destruct a as [fs rq | s | i e now | i ok]; cbn [step] in Hs.
  - injection Hs as <-.
    destruct (handle_sent_created decode encode fs rq st) as [E Hle].
    rewrite E. eapply Forall_impl; [|exact Hall].
    intros call [H1 H2]. split; [exact H1 | lia].
  - destruct ((s <? created st)%nat && negb (existsb (Nat.eqb s) (closed st)));
      [|discriminate].
    injection Hs as <-. exact Hall.
  - injection Hs as <-. unfold watcher_raw.
    destruct (watcher st); exact Hall.
  - injection Hs as <-. unfold watcher_timeout.
    destruct (watcher st) as [w|]; [|exact Hall].
    destruct (Watcher.timeout i w) as [w' calls].
    destruct (run_listeners_calls ok calls (set_watcher (Some w') st))
      as (extra & E & Hextra).
    rewrite E. simpl. apply Forall_app. split; [exact Hall|].
    eapply Forall_impl; [|exact Hextra].
    intros call [H1 H2]. split; [exact H1|].
    simpl in H2. apply Hok in H2. apply H2.
Qed.

(** X7: whatever a serving server has sent over its sockets, it was the text
    [updated], and it was sent to a socket that the server had upgraded
    itself. *)
Theorem server_only_sends_updated :
  forall (decode : list byte -> jsstring) (encode : jsstring -> list byte)
         (options : ServerOptions) (acts : list Action) (st : t),
    exec decode encode (serve (new_ options)) acts = Some st ->
    Forall (fun call => snd (fst call) = lit "updated"
                        /\ (fst (fst call) < created st)%nat) (sent st).
Proof.
  intros decode encode options acts.
  assert (H0 : sent (serve (new_ options)) = []).
  { unfold serve, new_. simpl.
    destruct (opt_watch options) as [[|]|]; reflexivity. }
  pose proof (serve_clients_ok options) as Hok.
  assert (Hall : Forall (fun call => snd (fst call) = lit "updated"
                           /\ (fst (fst call)
                               < created (serve (new_ options)))%nat)
                        (sent (serve (new_ options))))
    by (rewrite H0; constructor).
  revert Hok Hall. generalize (serve (new_ options)).
  induction acts as [|a acts IH]; intros st0 Hok Hall st He.
  - simpl in He. injection He as <-. exact Hall.
  - cbn [exec] in He.
    destruct (step decode encode st0 a) as [st1|] eqn:Es; [|discriminate].
    eapply IH; [| |exact He].
    + eapply step_clients_ok; eassumption.
    + eapply step_sent; eassumption.
Qed.

Lemma server_only_sends_updated_witness :
  exec latin1_decode latin1_encode (serve (new_ main_options)) notified_twice
  = Some after_two_notifications
  /\ sent after_two_notifications
     = [(0%nat, lit "updated", Normal); (1%nat, lit "updated", Throw);
        (2%nat, lit "updated", Normal);
        (0%nat, lit "updated", Normal); (2%nat, lit "updated", Normal)]
  /\ Forall (fun call => snd (fst call) = lit "updated"
                         /\ (fst (fst call)
                             < created after_two_notifications)%nat)
            (sent after_two_notifications).
Proof.
  assert (He : exec latin1_decode latin1_encode (serve (new_ main_options))
                    notified_twice
               = Some after_two_notifications) by (vm_compute; reflexivity).
  split; [exact He|]. split; [vm_compute; reflexivity|].
  exact (server_only_sends_updated latin1_decode latin1_encode main_options
           notified_twice after_two_notifications He).
Defined.

(** ** Without watching *)

Lemma handle_without_watcher :
  forall decode encode fs rq st,
    watcher st = None ->
    handle decode encode fs rq st
    = (st, match fs (resolve (root st) (pathname rq)) with
           | Some content => Response_ content 200
           | None => Response_ [] 404
           end).
Proof.
  intros decode encode fs rq st Hw. unfold handle. rewrite Hw. simpl.
  destruct (fs (resolve (root st) (pathname rq))); reflexivity.
Qed.

Lemma exec_without_watcher :
  forall decode encode acts st0 st,
    watcher st0 = None -> created st0 = O ->
    exec decode encode st0 acts = Some st -> st = st0.
Proof.
  intros decode encode acts st0 st Hw Hc.
  induction acts as [|a acts IH]; intros He.
  - simpl in He. congruence.
  - cbn [exec] in He.
    assert (Hs : step decode encode st0 a = Some st0
                 \/ step decode encode st0 a = None).
    { destruct a as [fs rq | s | i e now | i ok]; cbn [step].
      - left. rewrite handle_without_watcher by exact Hw. reflexivity.
      - right. rewrite Hc. reflexivity.
      - left. unfold watcher_raw. rewrite Hw. reflexivity.
      - left. unfold watcher_timeout. rewrite Hw. reflexivity. }
    destruct Hs as [Hs|Hs]; rewrite Hs in He; [|discriminate].
    apply IH, He.
Qed.

(** X8: a server constructed without [watch] has no watcher, and serving
    never changes it: it upgrades no request, holds no socket and sends
    nothing.  It answers every request from the file at the resolved path,
    byte for byte, [.html] files and the events path included, and with 404
    and an empty body when the read fails. *)
Theorem server_without_watch_only_serves_files :
  forall (decode : list byte -> jsstring) (encode : jsstring -> list byte)
         (options : ServerOptions) (acts : list Action) (st : t),
    opt_watch options <> Some true ->
    exec decode encode (serve (new_ options)) acts = Some st ->
    st = new_ options
    /\ watcher st = None /\ reloadClients st = [] /\ sent st = []
    /\ forall fs rq,
         handle decode encode fs rq st
         = (st, match fs (resolve (opt_root options) (pathname rq)) with
                | Some content => Response_ content 200
                | None => Response_ [] 404
                end).
Proof.
  intros decode encode options acts st Hopt He.
  assert (Hw : watcher (new_ options) = None).
  { unfold new_. simpl. destruct (opt_watch options) as [[|]|];
      [congruence | reflexivity | reflexivity]. }
  assert (Hserve : serve (new_ options) = new_ options).
  { unfold serve. rewrite Hw. cbv beta iota zeta. rewrite Hw. reflexivity. }
  rewrite Hserve in He.
  assert (Hst : st = new_ options)
    by (eapply exec_without_watcher; [exact Hw | reflexivity | exact He]).
  subst st. split; [reflexivity|]. split; [exact Hw|].
  split; [reflexivity|]. split; [reflexivity|].
  intros fs rq. apply handle_without_watcher, Hw.
Qed.

Lemma server_without_watch_only_serves_files_witness :
  opt_watch plain_options <> Some true
  /\ handle latin1_decode latin1_encode www (get "/") (new_ plain_options)
     = (new_ plain_options, Response_ index_html 200).
Proof.
  assert (Hopt : opt_watch plain_options <> Some true) by discriminate.
  split; [exact Hopt|].
  exact (proj2 (proj2 (proj2 (proj2
           (server_without_watch_only_serves_files latin1_decode
              latin1_encode plain_options
              [Incoming www (get "/"); Incoming www get_events]
              (new_ plain_options) Hopt eq_refl))))
           www (get "/")).
Defined.

(** ** Directories *)

Lemma endsWith_app : forall front s : jsstring, endsWith (front ++ s) s = true.
Proof. intros front s. apply endsWith_spec. exists front. reflexivity. Qed.

(** X9: with watching enabled, a request for a directory (a URL path ending
    in [/]) whose [index.html] can be read is always answered with that
    file's text with the reload script inserted, since the path it resolves
    to ends in [.html]. *)
Theorem directory_index_is_instrumented :
  forall (decode : list byte -> jsstring) (encode : jsstring -> list byte)
         (fs : FileSystem) (rq : Request) (st : t) (dir : jsstring)
         (content : list byte),
    is_some (watcher st) = true ->
    file_request st rq = true ->
    pathname rq = dir ++ lit "/" ->
    fs (root st ++ dir ++ lit "/index.html") = Some content ->
    handle decode encode fs rq st
    = (st,
       Response_ (encode (insert_script (reloadScript st) (decode content)))
                 200).
Proof.
  intros decode encode fs rq st dir content Hw Hf Hp Hfs.
  rewrite (handle_file_request _ _ _ _ _ Hf), Hp, resolve_directory, Hfs, Hw.
  replace (root st ++ dir ++ lit "/index.html")
    with ((root st ++ dir ++ lit "/index") ++ lit ".html")
    by (rewrite <- !app_assoc; reflexivity).
  rewrite endsWith_app. reflexivity.
Qed.

Lemma directory_index_is_instrumented_witness :
  is_some (watcher main_server) = true
  /\ file_request main_server (get "/") = true
  /\ pathname (get "/") = [] ++ lit "/"
  /\ www (root main_server ++ [] ++ lit "/index.html") = Some index_html
  /\ handle latin1_decode latin1_encode www (get "/") main_server
     = (main_server,
        Response_
          (latin1_encode
             (insert_script (reloadScript main_server)
                            (latin1_decode index_html))) 200).
Proof.
  split; [reflexivity|]. split; [reflexivity|]. split; [reflexivity|].
  split; [reflexivity|].
  exact (directory_index_is_instrumented latin1_decode latin1_encode www
           (get "/") main_server [] index_html
           eq_refl eq_refl eq_refl eq_refl).
Defined.

(** X10: the path that the server reads for a non-empty URL path never ends
    in [/]: a directory request is always turned into a request for a
    file. *)
Theorem resolved_path_never_ends_in_slash :
  forall (root_ pathname_ : jsstring),
    pathname_ <> [] ->
    endsWith (resolve root_ pathname_) (lit "/") = false.
Proof.
  intros root_ pathname_ Hne.
  destruct (endsWith (resolve root_ pathname_) (lit "/")) eqn:E;
    [|reflexivity].
  exfalso. apply endsWith_spec in E. destruct E as [front E].
  unfold resolve in E.
  destruct (endsWith pathname_ (lit "/")) eqn:Ep.
  - change (lit "index.html") with (lit "index.htm" ++ [108%N]) in E.
    rewrite !app_assoc in E. apply app_inj_tail in E.
    destruct E as [_ E]. discriminate E.
  - rewrite (app_removelast_last 0%N Hne), app_assoc in E.
    apply app_inj_tail in E. destruct E as [_ E].
    assert (Ht : endsWith pathname_ (lit "/") = true).
    { apply endsWith_spec. exists (removelast pathname_).
      rewrite (app_removelast_last 0%N Hne) at 1. rewrite E. reflexivity. }
    congruence.
Qed.

Lemma resolved_path_never_ends_in_slash_witness :
  lit "/docs/" <> []
  /\ endsWith (resolve (lit "www/") (lit "/docs/")) (lit "/") = false.
Proof.
  assert (H : lit "/docs/" <> []) by discriminate.
  split; [exact H|].
  exact (resolved_path_never_ends_in_slash (lit "www/") (lit "/docs/") H).
Defined.

(** ** The events path *)

(** X11: with watching enabled, a request for the events path never reaches
    the file system.  If it can be upgraded, it is answered with a socket
    that was never in the broadcast set before, and that socket is added at
    the end of the set, to which the next broadcast sends; if it cannot, it
    is answered with 404 and an empty body and nothing changes, whether or
    not a file of that name exists. *)
Theorem events_path_is_upgraded_or_404 :
  forall (decode : list byte -> jsstring) (encode : jsstring -> list byte)
         (options : ServerOptions) (acts : list Action) (st : t)
         (fs : FileSystem) (rq : Request),
    exec decode encode (serve (new_ options)) acts = Some st ->
    is_some (watcher st) = true ->
    pathname rq = reloadEventPath st ->
    (websocket_upgrade rq = false ->
     handle decode encode fs rq st = (st, Response_ [] 404))
    /\ (websocket_upgrade rq = true ->
        snd (handle decode encode fs rq st) = Upgrade (created st)
        /\ ~ In (created st) (reloadClients st)
        /\ ~ In (created st) (closed st)
        /\ reloadClients (fst (handle decode encode fs rq st))
           = reloadClients st ++ [created st]
        /\ forall ok,
             broadcast_targets ok (fst (handle decode encode fs rq st))
             = reloadClients st ++ [created st]).
Proof.
  intros decode encode options acts st fs rq He Hw Hp.
  assert (Hok : clients_ok st)
    by (eapply exec_clients_ok; [apply serve_clients_ok | exact He]).
  assert (Hbranch : is_some (watcher st)
                    && str_eqb (pathname rq) (reloadEventPath st) = true).
  { rewrite Hw, Hp. simpl. apply str_eqb_eq. reflexivity. }
  unfold handle. rewrite Hbranch. split; intros Hu; rewrite Hu.
  - reflexivity.
  - destruct Hok as (_ & Hin & Hcl). simpl.
    split; [reflexivity|].
    split; [intros H; apply Hin in H; destruct H; lia|].
    split; [intros H; apply Hcl in H; lia|].
    split; [reflexivity|].
    intros ok. rewrite broadcast_targets_clients. reflexivity.
Qed.

Lemma events_path_is_upgraded_or_404_witness :
  exec latin1_decode latin1_encode (serve (new_ main_options)) three_upgrades
  = Some three_clients
  /\ handle latin1_decode latin1_encode www (get "/.watch_n_serve/events")
            three_clients
     = (three_clients, Response_ [] 404)
  /\ reloadClients
       (fst (handle latin1_decode latin1_encode www get_events three_clients))
     = reloadClients three_clients ++ [created three_clients].
Proof.
  assert (He : exec latin1_decode latin1_encode (serve (new_ main_options))
                    three_upgrades
               = Some three_clients) by (vm_compute; reflexivity).
  split; [exact He|]. split.
  - exact (proj1 (events_path_is_upgraded_or_404 latin1_decode latin1_encode
                    main_options three_upgrades three_clients www
                    (get "/.watch_n_serve/events") He eq_refl eq_refl)
                 eq_refl).
  - exact (proj1 (proj2 (proj2 (proj2
             (proj2 (events_path_is_upgraded_or_404 latin1_decode
                       latin1_encode main_options three_upgrades
                       three_clients www get_events He eq_refl eq_refl)
                    eq_refl))))).
Defined.

(** ** A close event for a socket that is not in the set *)

(** X12: the close handler does not check the result of [indexOf]: were it
    to run for a socket that is not in the broadcast set, [indexOf] would
    give -1 and [splice(-1, 1)] would remove the last socket of the set, a
    client that is still connected.  (A serving server never gets there, as
    each socket closes once.) *)
Theorem close_of_unknown_socket_removes_last_client :
  forall (st : t) (s : Socket),
    ~ In s (reloadClients st) ->
    reloadClients (on_close s st) = removelast (reloadClients st).
Proof. intros st s H. apply on_close_absent, H. Qed.

Lemma close_of_unknown_socket_removes_last_client_witness :
  ~ In 7%nat (reloadClients three_clients)
  /\ reloadClients (on_close 7%nat three_clients) = [0%nat; 1%nat].
Proof.
  assert (H : ~ In 7%nat (reloadClients three_clients))
    by (vm_compute; intros [H|[H|[H|[]]]]; discriminate H).
  split; [exact H|].
  exact (eq_trans
           (close_of_unknown_socket_removes_last_client three_clients 7%nat H)
           eq_refl).
Defined.

(** ** The watcher of a serving server *)

Lemma raw_running :
  forall root_ i e now w,
    watcher_running root_ w -> watcher_running root_ (Watcher.raw i e now w).
Proof.
  intros root_ i e now w H.
  pose proof H as (Hl & Hd & Hw & Hs & Hdir & a & Ha & Hopen).
  unfold Watcher.raw. rewrite Ha.
  destruct i as [|i]; simpl.
  - rewrite Hopen. unfold watcher_running. simpl. rewrite Ha. simpl.
    repeat split; try assumption. eexists. split; reflexivity.
  - destruct i; exact H.
Qed.

Lemma timeout_running :
  forall root_ i w,
    watcher_running root_ w ->
    watcher_running root_ (fst (Watcher.timeout i w)).
Proof.
  intros root_ i w H.
  pose proof H as (Hl & Hd & Hw & Hs & Hdir & a & Ha & Hopen).
  unfold Watcher.timeout. rewrite Ha.
  destruct i as [|i]; simpl.
  - destruct (Watcher.pending a) as [|now rest]; [exact H|].
    destruct (Watcher.outstanding a - 1 =? 0); unfold watcher_running; simpl;
      repeat split; try assumption;
      eexists; (split; [reflexivity | exact Hopen]).
  - destruct i; exact H.
Qed.

Lemma step_running :
  forall decode encode root_ st a st',
    (exists w, watcher st = Some w /\ watcher_running root_ w) ->
    step decode encode st a = Some st' ->
    exists w', watcher st' = Some w' /\ watcher_running root_ w'.
Proof.
  intros decode encode root_ st a st' (w & Hw & Hrun) Hs.
  destruct a as [fs rq | s | i e now | i ok]; cbn [step] in Hs.
  - injection Hs as <-. rewrite handle_watcher. exists w. now split.
  - destruct ((s <? created st)%nat && negb (existsb (Nat.eqb s) (closed st)));
      [|discriminate].
    injection Hs as <-. exists w. now split.
  - injection Hs as <-. unfold watcher_raw. rewrite Hw. simpl.
    eexists. split; [reflexivity | apply raw_running, Hrun].
  - injection Hs as <-. rewrite (watcher_timeout_watcher _ _ _ _ Hw).
    eexists. split; [reflexivity | apply timeout_running, Hrun].
Qed.

Lemma serve_running :
  forall options,
    opt_watch options = Some true ->
    exists w,
      watcher (serve (new_ options)) = Some w
      /\ watcher_running (opt_root options) w.
Proof.
  intros options Ho. unfold serve, new_. rewrite Ho. simpl.
  eexists. split; [reflexivity|].
  unfold watcher_running. simpl. repeat split.
  eexists. split; reflexivity.
Qed.

Lemma exec_running :
  forall decode encode root_ acts st st',
    (exists w, watcher st = Some w /\ watcher_running root_ w) ->
    exec decode encode st acts = Some st' ->
    exists w', watcher st' = Some w' /\ watcher_running root_ w'.
Proof.
  intros decode encode root_. induction acts as [|a acts IH];
    intros st st' H He.
  - simpl in He. injection He as <-. exact H.
  - cbn [exec] in He.
    destruct (step decode encode st a) as [st1|] eqn:Es; [|discriminate].
    eapply IH; [|exact He]. eapply step_running; eassumption.
Qed.

(** X13: a server constructed with [watch] starts, in [serve()], a watcher
    on its root directory with the default delay of 200 and without an abort
    signal, and in every later state that watcher is still watching, with
    the server's listener as its only listener and with exactly one
    activation, whose handle is open: nothing the server does stops it, and
    aborting does nothing. *)
Theorem serving_watcher_keeps_watching :
  forall (decode : list byte -> jsstring) (encode : jsstring -> list byte)
         (options : ServerOptions) (acts : list Action) (st : t),
    opt_watch options = Some true ->
    exec decode encode (serve (new_ options)) acts = Some st ->
    exists w a,
      watcher st = Some w
      /\ Watcher.watching w = true
      /\ Watcher.minimumDelayMS w = 200
      /\ Watcher.directories w = [opt_root options]
      /\ Watcher.listeners w = [OnUpdated]
      /\ Watcher.activations w = [a]
      /\ Watcher.fs_open a = true
      /\ Watcher.abort w = w.
Proof.
  intros decode encode options acts st Ho He.
  destruct (exec_running decode encode (opt_root options) acts _ _
              (serve_running options Ho) He)
    as (w & Hw & Hl & Hd & Hwa & Hs & Hdir & a & Ha & Hopen).
  exists w, a. repeat split; try assumption.
  unfold Watcher.abort. rewrite Hs. reflexivity.
Qed.

Lemma serving_watcher_keeps_watching_witness :
  opt_watch main_options = Some true
  /\ exec latin1_decode latin1_encode (serve (new_ main_options))
          notified_twice
     = Some after_two_notifications
  /\ exists w a,
       watcher after_two_notifications = Some w
       /\ Watcher.watching w = true
       /\ Watcher.minimumDelayMS w = 200
       /\ Watcher.directories w = [opt_root main_options]
       /\ Watcher.listeners w = [OnUpdated]
       /\ Watcher.activations w = [a]
       /\ Watcher.fs_open a = true
       /\ Watcher.abort w = w.
Proof.
  assert (He : exec latin1_decode latin1_encode (serve (new_ main_options))
                    notified_twice
               = Some after_two_notifications) by (vm_compute; reflexivity).
  split; [reflexivity|]. split; [exact He|].
  exact (serving_watcher_keeps_watching latin1_decode latin1_encode
           main_options notified_twice after_two_notifications eq_refl He).
Defined.

(** X14: in a serving server whose watcher is idle, one raw event at time
    [now] followed by the timer it set makes the watcher dispatch once, at
    [now + 200], and the server then calls [send] with [updated] once for
    each socket of the broadcast set, in order, leaving the set and the
    watcher's activation as they were. *)
Theorem a_change_is_broadcast_after_the_delay :
  forall (decode : list byte -> jsstring) (encode : jsstring -> list byte)
         (options : ServerOptions) (acts : list Action) (st : t)
         (w : Watcher.t) (e : Watcher.FsEvent) (now : Z)
         (ok : Socket -> bool),
    opt_watch options = Some true ->
    exec decode encode (serve (new_ options)) acts = Some st ->
    watcher st = Some w ->
    nth_error (Watcher.activations w) 0 = Some Watcher.fresh_activation ->
    exists st' w',
      exec decode encode st [WatcherRaw 0 e now; WatcherTimeout 0 ok]
      = Some st'
      /\ watcher st' = Some w'
      /\ Watcher.dispatched w' = Watcher.dispatched w ++ [now + 200]
      /\ nth_error (Watcher.activations w') 0 = Some Watcher.fresh_activation
      /\ sent st' = sent st ++ updated_calls ok (reloadClients st)
      /\ reloadClients st' = reloadClients st.
Proof.
  intros decode encode options acts st w e now ok Ho He Hw Hact.
  destruct (exec_running decode encode (opt_root options) acts _ _
              (serve_running options Ho) He)
    as (w0 & Hw0 & Hl & Hd & _).
  assert (w0 = w) by congruence. subst w0.
  pose proof (WatcherProofs.at_fresh _ _ Hact) as Hat.
  apply (WatcherProofs.at_raw _ _ _ _ _ _ e now) in Hat.
  rewrite Hd in Hat. cbn in Hat.
  apply WatcherProofs.at_timeout in Hat. cbn in Hat.
  cbn [exec step]. unfold watcher_raw. rewrite Hw.
  unfold watcher_timeout. cbn [watcher set_watcher].
  destruct (WatcherProofs.timeout_calls 0 (Watcher.raw 0 e now w))
    as [[_ Hsame] | [Hcalls _]].
  - exfalso. destruct Hat as (_ & Ht & _). rewrite Hsame in Ht.
    replace (Watcher.dispatched (Watcher.raw 0 e now w))
      with (Watcher.dispatched w) in Ht.
    + apply (f_equal (@List.length Z)) in Ht.
      rewrite length_app in Ht. simpl in Ht. lia.
    + unfold Watcher.raw.
      destruct (nth_error (Watcher.activations w) 0) as [a|]; [|reflexivity].
      destruct (Watcher.fs_open a); reflexivity.
  - rewrite WatcherProofs.raw_listeners, Hl in Hcalls.
    destruct (Watcher.timeout 0 (Watcher.raw 0 e now w)) as [w2 calls].
    simpl in Hcalls, Hat. subst calls. cbn [fold_left run_listener].
    rewrite on_updated_add_sent.
    destruct Hat as (Hn & Ht & _).
    eexists. exists w2. split; [reflexivity|].
    split; [reflexivity|]. split; [exact Ht|]. split; [exact Hn|].
    split; reflexivity.
Qed.

Lemma a_change_is_broadcast_after_the_delay_witness :
  opt_watch main_options = Some true
  /\ exec latin1_decode latin1_encode (serve (new_ main_options))
          three_upgrades
     = Some three_clients
  /\ exists st' w',
       exec latin1_decode latin1_encode three_clients
            [WatcherRaw 0 Watcher.modify_event 120;
             WatcherTimeout 0 socket_1_gone]
       = Some st'
       /\ watcher st' = Some w'
       /\ Watcher.dispatched w' = Watcher.dispatched three_clients_watcher
                                  ++ [120 + 200]
       /\ nth_error (Watcher.activations w') 0
          = Some Watcher.fresh_activation
       /\ sent st'
          = sent three_clients
            ++ updated_calls socket_1_gone (reloadClients three_clients)
       /\ reloadClients st' = reloadClients three_clients.
Proof.
  assert (He : exec latin1_decode latin1_encode (serve (new_ main_options))
                    three_upgrades
               = Some three_clients) by (vm_compute; reflexivity).
  split; [reflexivity|]. split; [exact He|].
  exact (a_change_is_broadcast_after_the_delay latin1_decode latin1_encode
           main_options three_upgrades three_clients three_clients_watcher
           Watcher.modify_event 120 socket_1_gone eq_refl He
           ltac:(vm_compute; reflexivity) ltac:(vm_compute; reflexivity)).
Defined.

End ServerProofs.
